(** * A verified model of the SalesPark API client (api-client.ts)

    The client wraps an HTTP transport (Axios) so that every call resolves
    to an object [{ status, data }].  This development embeds the decision
    logic of [api-client.ts] and proves the properties its
    specification states about it:

    - the normalizers [normalizeSuccess] and [normalizeError];
    - the backoff policy [computeBackoff] and the classifier [isRetriable];
    - the execution wrapper [run];
    - the method surface of [withAuth] and the CRUD sugar of [resource].

    Modelling conventions.

    - JavaScript values are the inductive [value]; objects are finite maps
      from property names to values, so that the spread [{...a, k: v}] is
      a map insertion.  Property enumeration order is not represented.
    - Strings are sequences of 8-bit code units.
    - HTTP statuses and the retry count are integers ([Z]).  Delays and
      random draws are doubles: a finite double is the rational ([Q]) it
      denotes, and the arithmetic of [computeBackoff] rounds each result
      to the nearest double.  An option that holds [undefined] is [None],
      and so is the NaN it turns a count or a delay into; the infinities
      are not represented.
    - The transport, the random source and the passage of time act on an
      abstract world; the wrapper threads it explicitly and keeps a
      chronological log of the exchanges and waits it performed. *)

From Stdlib Require Import ZArith QArith Qround Qminmax Qpower Qabs.
From Stdlib Require Import String Ascii List Lia Lqa.
From Equations Require Import Equations.
From stdpp Require Import base option list gmap strings pretty.

Set Warnings "-register-all".
Local Open Scope string_scope.
Local Open Scope list_scope.
Local Open Scope Z_scope.

(** ** JavaScript values *)

Inductive value : Type :=
| VUndefined
| VNull
| VBool (b : bool)
| VNum (n : Z)
| VStr (s : string)
| VBlob (handle : N)                (* an opaque Blob or File host object *)
| VArr (items : list value)
| VObj (fields : gmap string value).

(** [typeof v] *)
Definition typeof (v : value) : string :=
  match v with
  | VUndefined => "undefined"
  | VNull => "object"
  | VBool _ => "boolean"
  | VNum _ => "number"
  | VStr _ => "string"
  | VBlob _ | VArr _ | VObj _ => "object"
  end.

(** ToBoolean: what [if (v)], [!v], [a && b] and [a || b] test. *)
Definition truthy (v : value) : bool :=
  match v with
  | VUndefined | VNull => false
  | VBool b => b
  | VNum n => negb (n =? 0)
  | VStr s => negb (String.eqb s "")
  | VBlob _ | VArr _ | VObj _ => true
  end.

(** [a || b] *)
Definition js_or (a b : value) : value := if truthy a then a else b.

(** Canonical array-index property names: ["0"], ["1"], ..., without a
    leading zero. *)
Definition is_digit (c : ascii) : bool :=
  (48 <=? nat_of_ascii c)%nat && (nat_of_ascii c <=? 57)%nat.

Fixpoint digits_value (acc : nat) (s : string) : option nat :=
  match s with
  | EmptyString => Some acc
  | String c s' =>
      if is_digit c
      then digits_value (10 * acc + (nat_of_ascii c - 48))%nat s'
      else None
  end.

Definition array_index (k : string) : option nat :=
  match k with
  | EmptyString => None
  | String c EmptyString => digits_value 0 k
  | String c _ => if Ascii.eqb c "0"%char then None else digits_value 0 k
  end.

(** [k in v] for a value [v] that is an object.  Properties inherited
    from the built-in prototypes are not represented; none of them is
    named [status] or [data], the only names the client tests. *)
Definition has_property (k : string) (v : value) : bool :=
  match v with
  | VObj o => bool_decide (is_Some (o !! k))
  | VArr l =>
      match array_index k with
      | Some i => (i <? length l)%nat
      | None => String.eqb k "length"
      end
  | _ => false
  end.

(** [v?.k]: reading property [k], [undefined] when [v] is [null],
    [undefined] or has no such property.  The client reads the names
    [status], [data], [message] and [error] only; the intrinsic
    properties of strings and blobs are not among them. *)
Definition getProp (v : value) (k : string) : value :=
  match v with
  | VObj o => default VUndefined (o !! k)
  | VArr l =>
      match array_index k with
      | Some i => default VUndefined (l !! i)
      | None => if String.eqb k "length" then VNum (Z.of_nat (length l)) else VUndefined
      end
  | _ => VUndefined
  end.

(** The own enumerable properties copied by a spread [{...v}]. *)
Definition index_props (l : list value) : gmap string value :=
  list_to_map (imap (fun i x => (pretty i, x)) l).

Fixpoint chars (s : string) : list value :=
  match s with
  | EmptyString => []
  | String c s' => VStr (String c EmptyString) :: chars s'
  end.

Definition spread (v : value) : gmap string value :=
  match v with
  | VObj o => o
  | VArr l => index_props l
  | VStr s => index_props (chars s)
  | _ => ∅
  end.

(** [Object.entries(v)] (in the enumeration order of the map). *)
Definition entries (v : value) : list (string * value) :=
  map_to_list (spread v).

(** [String(v)] and template-literal conversion. *)
Fixpoint join (sep : string) (l : list string) : string :=
  match l with
  | [] => ""
  | [x] => x
  | x :: rest => x +:+ sep +:+ join sep rest
  end.

Fixpoint ToString (v : value) : string :=
  match v with
  | VUndefined => "undefined"
  | VNull => "null"
  | VBool true => "true"
  | VBool false => "false"
  | VNum n => pretty n
  | VStr s => s
  | VBlob _ => "[object Blob]"
  | VArr l =>
      join "," (List.map (fun x => match x with
                                   | VUndefined | VNull => ""
                                   | _ => ToString x
                                   end) l)
  | VObj _ => "[object Object]"
  end.

(** [s.trim()] over the white space of the 8-bit range. *)
Definition is_space (c : ascii) : bool :=
  match nat_of_ascii c with
  | 9 | 10 | 11 | 12 | 13 | 32 | 160 => true
  | _ => false
  end%nat.

Fixpoint trimStart (s : string) : string :=
  match s with
  | EmptyString => EmptyString
  | String c s' => if is_space c then trimStart s' else s
  end.

Definition trim (s : string) : string :=
  String.rev (trimStart (String.rev (trimStart s))).

(** ** Transport outcomes *)

(** The fields of [AxiosResponse] and [AxiosError] that the client
    reads, with the types Axios declares for them.  A thrown value that
    is not an Axios error reads the same as an error without code and
    response (and with an empty message when it has none). *)
Record AxiosResponse := {
  data : value;
  status : Z;
  headers : gmap string string;
}.

Record AxiosError := {
  message : string;
  code : option string;
  response : option AxiosResponse;
}.

Inductive Outcome :=
| Resolved (res : AxiosResponse)
| Rejected (err : AxiosError).

(** ** Retry options *)

Record RetryOptions := {
  retries : Z;
  baseDelayMs : Q;
  maxDelayMs : Q;
  jitter : bool;
}.

Definition DEFAULT_RETRY : RetryOptions :=
  {| retries := 1; baseDelayMs := 300; maxDelayMs := 2000; jitter := true |}.

(** A key of a [Partial<...>] object: the key is absent, or it is
    present and holds [undefined], or it is present and holds a value.
    Object spread copies every present key, also one that holds
    [undefined]. *)
Inductive Key (A : Type) :=
| Absent
| Undefined
| Given (a : A).

Arguments Absent {A}.
Arguments Undefined {A}.
Arguments Given {A} a.

(** [Partial<RetryOptions>] *)
Record RetryOverride := {
  o_retries : Key Z;
  o_baseDelayMs : Key Q;
  o_maxDelayMs : Key Q;
  o_jitter : Key bool;
}.

Definition noOverride : RetryOverride :=
  {| o_retries := Absent; o_baseDelayMs := Absent; o_maxDelayMs := Absent;
     o_jitter := Absent |}.

(** The object [retry] that [run] works with: every key of the defaults
    is present in it, and holds a value or [undefined] ([None]).  A
    [retries] that is given is an integer. *)
Record Retry := {
  retry_retries : option Z;
  retry_baseDelayMs : option Q;
  retry_maxDelayMs : option Q;
  retry_jitter : option bool;
}.

(** One key of a spread [{ ...defaults, ...override }]. *)
Definition spreadKey {A : Type} (dflt : A) (k : Key A) : option A :=
  match k with
  | Absent => Some dflt
  | Undefined => None
  | Given a => Some a
  end.

(** [{ ...DEFAULT_RETRY, ...(options.retry ?? {}) }] *)
Definition mergeRetry (o : option RetryOverride) : Retry :=
  let p := default noOverride o in
  {| retry_retries := spreadKey (retries DEFAULT_RETRY) (o_retries p);
     retry_baseDelayMs := spreadKey (baseDelayMs DEFAULT_RETRY) (o_baseDelayMs p);
     retry_maxDelayMs := spreadKey (maxDelayMs DEFAULT_RETRY) (o_maxDelayMs p);
     retry_jitter := spreadKey (jitter DEFAULT_RETRY) (o_jitter p) |}.

(** ** Normalizers *)

(** The test shared by both normalizers:
    [p && typeof p === "object" && "status" in p && "data" in p]. *)
Definition followsContract (p : value) : bool :=
  truthy p && String.eqb (typeof p) "object"
  && has_property "status" p && has_property "data" p.

(** [{ status: b, data: d }] *)
Definition mkResult (b : bool) (d : value) : value :=
  VObj (<["data" := d]> {["status" := VBool b]}).

Definition normalizeSuccess (res : AxiosResponse) : value :=
  let payload := data res in
  if followsContract payload then
    match getProp payload "status" with
    | VBool true => payload
    | _ => mkResult true payload
    end
  else mkResult true payload.

Definition normalizeError (err : AxiosError) : value :=
  let r := response err in
  let rdata := from_option data VUndefined r in
  let passthrough :=
    if followsContract rdata then
      match getProp rdata "status" with
      | VBool false => true
      | _ => false
      end
    else false in
  if passthrough then rdata
  else
    let responseData := rdata in
    let message :=
      js_or (getProp responseData "message")
        (js_or (getProp responseData "error")
           (js_or (VStr (message err)) (VStr "Request failed"))) in
    let data0 : gmap string value :=
      if truthy responseData && String.eqb (typeof responseData) "object"
      then <["message" := message]> (spread responseData)
      else {["message" := message]} in
    let data1 :=
      match r with
      | Some r' =>
          if truthy (VNum (status r'))
          then <["statusCode" := VNum (status r')]> data0
          else data0
      | None => data0
      end in
    let data2 :=
      match code err with
      | Some c => if truthy (VStr c) then <["code" := VStr c]> data1 else data1
      | None => data1
      end in
    mkResult false (VObj data2).

(** ** Numbers

    The delays and the random draws of the program are IEEE-754
    doubles.  A finite double is modelled as the rational it denotes,
    and an arithmetic operation of the code as the exact operation
    followed by [round64], the rounding to the nearest double, ties to
    even, subnormals included.  The infinities are not among these
    values: an operation that overflows (a result of 2^1024 or more,
    such as [2 ** (attempt - 1)] beyond attempt 1024) is outside the
    model. *)

(** 2 to the power [e] *)
Definition pow2 (e : Z) : Q := Qpower 2 e.

(** The floor of the binary logarithm of a positive rational. *)
Definition ilog2 (x : Q) : Z :=
  let e := Z.log2 (Qnum x) - Z.log2 (Zpos (Qden x)) in
  if Qle_bool (pow2 e) x then e else e - 1.

(** The nearest integer, ties to even. *)
Definition nearestEven (x : Q) : Z :=
  let f := Qfloor x in
  match Qcompare (x - inject_Z f) (1 # 2) with
  | Lt => f
  | Gt => f + 1
  | Eq => if Z.even f then f else f + 1
  end.

(** The double nearest to a positive rational: 53 significant bits,
    and no exponent below -1074. *)
Definition roundPositive (x : Q) : Q :=
  let q := Z.max (ilog2 x - 52) (-1074) in
  Qred (inject_Z (nearestEven (x / pow2 q)) * pow2 q).

Definition round64 (x : Q) : Q :=
  match Qcompare x 0 with
  | Eq => 0%Q
  | Gt => roundPositive x
  | Lt => Qopp (roundPositive (Qopp x))
  end.

(** A rational with a 53-bit significand and an exponent that is not
    below the smallest one; it is a finite double when it is also below
    2^1024 in magnitude. *)
Definition representable (x : Q) : Prop :=
  exists m e, (x == inject_Z m * pow2 e)%Q /\ Z.abs m < 2 ^ 53 /\ -1074 <= e.

Definition finiteDouble (x : Q) : Prop :=
  representable x /\ (Qabs x < pow2 1024)%Q.

(** ** Backoff policy *)

(** [rand01] is the value [Math.random()] returns; it is only drawn, and
    only used, when [jitter] is set.  [0.3] is the double nearest to
    3/10; [Math.min] and [Math.floor] are exact. *)
Definition computeBackoff (rand01 : Q) (attempt : Z) (o : RetryOptions) : Q :=
  let exp :=
    Qmin (maxDelayMs o) (round64 (baseDelayMs o * round64 (2 ^ (attempt - 1)))%Q) in
  if negb (jitter o) then exp
  else
    let rand := round64 (round64 (rand01 * exp)%Q * round64 (3 # 10))%Q in
    Qmin (maxDelayMs o) (inject_Z (Qfloor (round64 (exp - rand)%Q))).

(** ** Retriability classifier *)

Definition isRetriable (err : AxiosError) : bool :=
  match status <$> response err with
  | None => true
  | Some s =>
      if negb (truthy (VNum s)) then true
      else (500 <=? s) && (s <? 600)
  end.

(** ** Execution wrapper *)

(** What the wrapper does to the outside, in order.  The delay of a
    wait is a number of milliseconds, or NaN ([None]). *)
Inductive Event :=
| EvExchange                 (* one invocation of the exchange function *)
| EvWait (ms : option Q).    (* one [await delay(ms)] *)

Definition is_exchange (e : Event) : bool :=
  match e with EvExchange => true | EvWait _ => false end.

(** Number of exchange attempts recorded in a log. *)
Definition attempts (l : list Event) : nat :=
  length (List.filter is_exchange l).

(** The merged object read as a [RetryOptions], when its two delays
    are numbers: an [undefined] [jitter] is falsy, and [retries], which
    the backoff does not read, is a number whenever the loop runs. *)
Definition policyOf (retry : Retry) : option RetryOptions :=
  match retry_baseDelayMs retry, retry_maxDelayMs retry with
  | Some b, Some m =>
      Some {| retries := default 0 (retry_retries retry);
              baseDelayMs := b; maxDelayMs := m;
              jitter := default false (retry_jitter retry) |}
  | _, _ => None
  end.

Section Runner.
Context {W : Type}.
(** [Math.random()], and what a timer set to [ms] milliseconds (NaN
    when [None]) lets happen before it fires. *)
Variable random : W -> Q * W.
Variable elapse : option Q -> W -> W.

Record State := { world : W; log : list Event }.

(** [await fn()] inside the [try]: a rejection (or a throw) of the
    exchange function is the [Rejected] outcome handled by [catch]. *)
Definition invoke (fn : W -> Outcome * W) (st : State) : Outcome * State :=
  let '(o, w) := fn (world st) in
  (o, {| world := w; log := log st ++ [EvExchange] |}).

(** [await delay(ms)] *)
Definition delay (ms : option Q) (st : State) : State :=
  {| world := elapse ms (world st); log := log st ++ [EvWait ms] |}.

(** [computeBackoff(attempt, retry)] on the merged object, for the
    random draw [rand01]: an [undefined] delay makes [exp], and with it
    the result, NaN. *)
Definition backoff (rand01 : Q) (attempt : Z) (retry : Retry) : option Q :=
  computeBackoff rand01 attempt <$> policyOf retry.

(** [const wait = computeBackoff(attempt, retry); await delay(wait);]
    [Math.random()] is called when, and only when, [jitter] is truthy. *)
Definition backoffWait (attempt : Z) (retry : Retry) (st : State) : State :=
  if default false (retry_jitter retry) then
    let '(r, w) := random (world st) in
    delay (backoff r attempt retry) {| world := w; log := log st |}
  else delay (backoff 0 attempt retry) st.

Definition unexpectedError : value :=
  mkResult false (VObj {["message" := VStr "Unexpected client error"]}).

(** The [while (attempt < maxAttempts)] loop of [run], entered with the
    current value of [attempt]. *)
Equations? runLoop (fn : W -> Outcome * W) (retry : Retry)
    (maxAttempts attempt : Z) (st : State) : value * State
    by wf (Z.to_nat (maxAttempts - attempt)) lt :=
  runLoop fn retry maxAttempts attempt st with Z_lt_dec attempt maxAttempts := {
    | right _ => (unexpectedError, st)
    | left Hlt with invoke fn st := {
        | (Resolved res, st1) => (normalizeSuccess res, st1)
        | (Rejected err, st1)
            with (maxAttempts <=? attempt + 1) || negb (isRetriable err) := {
            | true => (normalizeError err, st1)
            | false =>
                runLoop fn retry maxAttempts (attempt + 1)
                  (backoffWait (attempt + 1) retry st1) } } }.
Proof. lia. Qed.

(** [1 + Math.max(0, retry.retries)]: NaN ([None]) when [retries] is
    [undefined]. *)
Definition maxAttemptsOf (retry : Retry) : option Z :=
  (fun n => 1 + Z.max 0 n) <$> retry_retries retry.

(** With [maxAttempts] NaN the test [attempt < maxAttempts] is false at
    once: the loop is skipped and the statement after it is reached. *)
Definition run (fn : W -> Outcome * W) (retryOverride : option RetryOverride)
    (st : State) : value * State :=
  let attempt := 0 in
  let retry := mergeRetry retryOverride in
  match maxAttemptsOf retry with
  | Some maxAttempts => runLoop fn retry maxAttempts attempt st
  | None => (unexpectedError, st)
  end.
End Runner.

Arguments State : clear implicits.

(** ** Method surface ([withAuth]) *)

Inductive Method := GET | POST | PUT | PATCH | DELETE.

(** Multipart forms: text fields and binary parts. *)
Inductive FormEntry :=
| FText (s : string)
| FBlob (handle : N).

Definition FormData := list (string * FormEntry).

Inductive Body :=
| NoBody
| JsonBody (payload : value)
| FormBody (form : FormData).

(** The per-call Axios configuration built by [cfg]; an absent key is
    [VUndefined]. *)
Record AxiosRequestConfig := {
  cfg_params : value;
  cfg_headers : value;
  cfg_signal : value;
  cfg_timeout : value;
  cfg_responseType : value;
  cfg_onUploadProgress : value;
}.

Record Request := {
  req_method : Method;
  req_url : string;
  req_body : Body;
  req_config : AxiosRequestConfig;
}.

(** [RequestOptions]: the per-call options of every method. *)
Record RequestOptions := {
  opt_params : value;
  opt_headers : value;
  opt_signal : value;
  opt_timeout : value;
  opt_responseType : value;
  opt_retry : option RetryOverride;
  opt_onUploadProgress : value;
  opt_fieldName : option string;
}.

(** The state of a promise once it has settled. *)
Inductive Settled :=
| Fulfilled (v : value)
| RejectedWith (error : string).

(** How a call of a method completes: it throws synchronously, or it
    returns a promise. *)
Inductive Completion :=
| Throws (error : string)
| Returns (promise : Settled).

(** The data accepted by [upload]. *)
Inductive UploadData :=
| UFormData (form : FormData)
| UValue (v : value).

(** [validateUrl]: [Some e] when it throws [new Error(e)]. *)
Definition validateUrl (url : value) : option string :=
  if negb (truthy url)
     || negb (String.eqb (typeof url) "string")
     || String.eqb (trim (ToString url)) ""
  then Some "URL must be a non-empty string"
  else None.

(** Removal of every single and double quote character, the
    [replace] applied to the matched file name. *)
Fixpoint stripQuotes (s : string) : string :=
  match s with
  | EmptyString => EmptyString
  | String c s' =>
      if Ascii.eqb c (ascii_of_nat 39) || Ascii.eqb c (ascii_of_nat 34)
      then stripQuotes s'
      else String c (stripQuotes s')
  end.

Section Client.
Context {Net : Type}.
(** The Axios instance with its interceptors, [Math.random], time. *)
Variable transport : Request -> Net -> Outcome * Net.
Variable random : Net -> Q * Net.
Variable elapse : option Q -> Net -> Net.
(** Capture group 1 of the first match, in a header value, of the
    regular expression with which [download] looks for [filename=...]
    (quoted or not); [None] when there is no match. *)
Variable matchFilename : string -> option string.

Definition cfg (extra : AxiosRequestConfig) : AxiosRequestConfig := extra.

Definition exchange (m : Method) (url : value) (body : Body)
    (c : AxiosRequestConfig) : Net -> Outcome * Net :=
  transport {| req_method := m; req_url := ToString url;
               req_body := body; req_config := cfg c |}.

(** Options forwarded by [getMany], [getOne] and [remove]. *)
Definition queryConfig (o : RequestOptions) : AxiosRequestConfig :=
  {| cfg_params := opt_params o; cfg_headers := opt_headers o;
     cfg_signal := opt_signal o; cfg_timeout := opt_timeout o;
     cfg_responseType := opt_responseType o;
     cfg_onUploadProgress := VUndefined |}.

(** Options forwarded by [post], [put] and [patch]. *)
Definition payloadConfig (o : RequestOptions) : AxiosRequestConfig :=
  {| cfg_params := VUndefined; cfg_headers := opt_headers o;
     cfg_signal := opt_signal o; cfg_timeout := opt_timeout o;
     cfg_responseType := opt_responseType o;
     cfg_onUploadProgress := VUndefined |}.

(** [validateUrl(url); ...; return run(fn, { retry })] of a method that
    is not [async]. *)
Definition validated (url : value) (fn : Net -> Outcome * Net)
    (o : RequestOptions) (st : State Net) : Completion * State Net :=
  match validateUrl url with
  | Some e => (Throws e, st)
  | None =>
      let '(v, st') := run random elapse fn (opt_retry o) st in
      (Returns (Fulfilled v), st')
  end.

Definition getMany (url : value) (options : RequestOptions) :=
  validated url (exchange GET url NoBody (queryConfig options)) options.

Definition getOne (url : value) (options : RequestOptions) :=
  validated url (exchange GET url NoBody (queryConfig options)) options.

Definition post (url payload : value) (options : RequestOptions) :=
  validated url (exchange POST url (JsonBody payload) (payloadConfig options)) options.

Definition put (url payload : value) (options : RequestOptions) :=
  validated url (exchange PUT url (JsonBody payload) (payloadConfig options)) options.

Definition patch (url payload : value) (options : RequestOptions) :=
  validated url (exchange PATCH url (JsonBody payload) (payloadConfig options)) options.

Definition remove (url : value) (options : RequestOptions) :=
  validated url (exchange DELETE url NoBody (queryConfig options)) options.

(** The [FormData] built by [upload], [None] when it throws. *)
Definition uploadForm (fieldName : string) (data : UploadData) : option FormData :=
  match data with
  | UFormData form => Some form
  | UValue (VBlob h) => Some [(fieldName, FBlob h)]
  | UValue v =>
      if truthy v && String.eqb (typeof v) "object" then
        Some (omap (fun kv => match snd kv with
                              | VNull | VUndefined => None
                              | x => Some (fst kv, FText (ToString x))
                              end) (entries v))
      else None
  end.

Definition upload (url : value) (data : UploadData) (options : RequestOptions)
    (st : State Net) : Completion * State Net :=
  match validateUrl url with
  | Some e => (Throws e, st)
  | None =>
      let fieldName := default "file" (opt_fieldName options) in
      match uploadForm fieldName data with
      | None =>
          (Throws "Invalid upload data type. Expected FormData, Blob, File, or object.", st)
      | Some formData =>
          let c :=
            {| cfg_params := VUndefined;
               cfg_headers :=
                 VObj (<["Content-Type" := VStr "multipart/form-data"]>
                         (spread (js_or (opt_headers options) (VObj ∅))));
               cfg_signal := opt_signal options;
               cfg_timeout := opt_timeout options;
               cfg_responseType := VUndefined;
               cfg_onUploadProgress := opt_onUploadProgress options |} in
          let '(v, st') :=
            run random elapse (exchange POST url (FormBody formData) c)
              (opt_retry options) st in
          (Returns (Fulfilled v), st')
      end
  end.

(** [download] is an [async] function whose exchange closure assigns
    the local variable [response]; the world of its [run] carries that
    variable next to the transport's state. *)
Definition capturing (fn : Net -> Outcome * Net)
    (w : Net * option AxiosResponse) : Outcome * (Net * option AxiosResponse) :=
  match fn (fst w) with
  | (Resolved r, n) => (Resolved r, (n, Some r))
  | (Rejected e, n) => (Rejected e, (n, snd w))
  end.

Definition extractFilename (response : option AxiosResponse) : value :=
  match response with
  | None => VUndefined
  | Some r =>
      match headers r !! "content-disposition" with
      | Some contentDisposition =>
          if truthy (VStr contentDisposition) then
            match matchFilename contentDisposition with
            | Some m => if truthy (VStr m) then VStr (stripQuotes m) else VUndefined
            | None => VUndefined
            end
          else VUndefined
      | None => VUndefined
      end
  end.

Definition download (url : value) (options : RequestOptions)
    (st : State Net) : Completion * State Net :=
  match validateUrl url with
  | Some e => (Returns (RejectedWith e), st)
  | None =>
      let c :=
        {| cfg_params := opt_params options; cfg_headers := opt_headers options;
           cfg_signal := opt_signal options; cfg_timeout := opt_timeout options;
           cfg_responseType := VStr "blob";
           cfg_onUploadProgress := VUndefined |} in
      let '(result, st1) :=
        run (fun w => let '(r, n) := random (fst w) in (r, (n, snd w)))
            (fun ms w => (elapse ms (fst w), snd w))
            (capturing (exchange GET url NoBody c))
            (opt_retry options)
            {| world := (world st, None); log := log st |} in
      let st' := {| world := fst (world st1); log := log st1 |} in
      if negb (truthy (getProp result "status")) then (Returns (Fulfilled result), st')
      else
        let filename := extractFilename (snd (world st1)) in
        (Returns (Fulfilled
           (mkResult true
              (VObj (<["filename" := filename]> {["blob" := getProp result "data"]})))),
         st')
  end.

(** ** Resource sugar ([resource]) *)

Definition validateId (id : value) : option string :=
  match id with
  | VNull | VUndefined | VStr EmptyString =>
      Some "Resource ID must be provided and non-empty"
  | _ => None
  end.

Definition validateSubpath (subpath : value) : option string :=
  if negb (truthy subpath)
     || negb (String.eqb (typeof subpath) "string")
     || String.eqb (trim (ToString subpath)) ""
  then Some "Subpath must be a non-empty string"
  else None.

(** [`${baseUrl}/${x}`] *)
Definition under (baseUrl x : value) : value :=
  VStr (ToString baseUrl +:+ "/" +:+ ToString x).

Definition Call := RequestOptions -> State Net -> Completion * State Net.

Record Resource := {
  r_list : value -> Call;
  r_get : value -> Call;
  r_create : value -> Call;
  r_update : value -> value -> Call;
  r_patch : value -> value -> Call;
  r_remove : value -> Call;
  r_action : value -> value -> Call;
}.

Definition withId (id : value) (k : Call) : Call :=
  fun opts st =>
    match validateId id with
    | Some e => (Throws e, st)
    | None => k opts st
    end.

(** [resource(baseUrl)]: [inl e] when the construction throws. *)
Definition resource (baseUrl : value) : string + Resource :=
  match validateUrl baseUrl with
  | Some e => inl e
  | None =>
      inr {|
        r_list := fun query opts =>
          let query := match query with VUndefined => VObj ∅ | q => q end in
          getMany baseUrl
            {| opt_params := VObj (spread query ∪ spread (opt_params opts));
               opt_headers := opt_headers opts; opt_signal := opt_signal opts;
               opt_timeout := opt_timeout opts;
               opt_responseType := opt_responseType opts;
               opt_retry := opt_retry opts;
               opt_onUploadProgress := opt_onUploadProgress opts;
               opt_fieldName := opt_fieldName opts |};
        r_get := fun id => withId id (getOne (under baseUrl id));
        r_create := fun payload => post baseUrl payload;
        r_update := fun id payload => withId id (put (under baseUrl id) payload);
        r_patch := fun id payload => withId id (patch (under baseUrl id) payload);
        r_remove := fun id => withId id (remove (under baseUrl id));
        r_action := fun subpath payload opts st =>
          match validateSubpath subpath with
          | Some e => (Throws e, st)
          | None =>
              let url := under baseUrl subpath in
              match payload with
              | VUndefined => getOne url opts st
              | _ => post url payload opts st
              end
          end
      |}
  end.
End Client.

(** ** Vocabulary of the specification *)

(** A payload [{ status: b, data: X, ... }] that already has the
    canonical shape, with discriminant [b]. *)
Definition canonical (b : bool) (v : value) : Prop :=
  exists o, v = VObj o /\ o !! "status" = Some (VBool b) /\ is_Some (o !! "data").

(** A result in the sense of the contract: an object with a boolean
    [status] and a [data] property. *)
Definition isResult (v : value) : Prop :=
  exists b, canonical b v.

(** The body of the response carried by an error, [err?.response?.data]. *)
Definition errorBody (err : AxiosError) : value :=
  from_option data VUndefined (response err).

(** The HTTP status carried by an error, if any. *)
Definition httpStatus (err : AxiosError) : option Z :=
  status <$> response err.

(** The message of a synthesized failure, by priority: the body's
    [message] when truthy, else the body's [error] when truthy, else the
    transport error's own message when not empty, else a fixed text. *)
Definition chosenMessage (err : AxiosError) : value :=
  if truthy (getProp (errorBody err) "message") then getProp (errorBody err) "message"
  else if truthy (getProp (errorBody err) "error") then getProp (errorBody err) "error"
  else if negb (String.eqb (message err) "") then VStr (message err)
  else VStr "Request failed".

(** The fields of a structured (object) error body; none otherwise. *)
Definition mergedBody (err : AxiosError) : gmap string value :=
  if truthy (errorBody err) && String.eqb (typeof (errorBody err)) "object"
  then spread (errorBody err) else ∅.

(** The capped exponential delay [exp], as the code computes it. *)
Definition expDelay (attempt : Z) (o : RetryOptions) : Q :=
  Qmin (maxDelayMs o) (round64 (baseDelayMs o * round64 (2 ^ (attempt - 1)))%Q).

(** The capped exponential delay of the specification's formula,
    [min(maxDelayMs, baseDelayMs * 2^(attempt-1))] in exact arithmetic. *)
Definition exactExp (attempt : Z) (o : RetryOptions) : Q :=
  Qmin (maxDelayMs o) (baseDelayMs o * 2 ^ (attempt - 1))%Q.

(** The floor of [exp - r * exp * 0.3], every operation computed in
    double precision. *)
Definition jittered (r : Q) (attempt : Z) (o : RetryOptions) : Q :=
  inject_Z (Qfloor (round64 (expDelay attempt o
      - round64 (round64 (r * expDelay attempt o) * round64 (3 # 10)))%Q)).

(** The policy of the specification's backoff table. *)
Definition tablePolicy : RetryOptions :=
  {| retries := 1; baseDelayMs := 300; maxDelayMs := 2000; jitter := false |}.

(** A policy whose delays are a number of milliseconds beyond 2^53. *)
Definition hugePolicy : RetryOptions :=
  {| retries := 1; baseDelayMs := 30024494839869556;
     maxDelayMs := 30024494839869556; jitter := true |}.

(** An abort failure as the transport reports it: no response, and the
    cancellation code. *)
Definition isAbort (err : AxiosError) : Prop :=
  response err = None /\ code err = Some "ERR_CANCELED".

(** A path rejected by the validation: not a string, or a string that is
    empty or consists of white space only. *)
Definition blankPath (v : value) : Prop :=
  match v with
  | VStr s => trim s = ""
  | _ => True
  end.

(** An identifier rejected by [validateId]. *)
Definition missingId (v : value) : Prop :=
  v = VNull \/ v = VUndefined \/ v = VStr "".

(** ** Concrete transport outcomes used below *)

Definition responseOf (s : Z) (d : value) : AxiosResponse :=
  {| data := d; status := s; headers := ∅ |}.

(** An HTTP failure: status [s], body [d]. *)
Definition httpError (s : Z) (d : value) : AxiosError :=
  {| message := "Request failed with status code " +:+ pretty s;
     code := Some "ERR_BAD_RESPONSE";
     response := Some (responseOf s d) |}.

(** Failures without a response. *)
Definition networkError : AxiosError :=
  {| message := "Network Error"; code := Some "ERR_NETWORK"; response := None |}.

Definition abortError : AxiosError :=
  {| message := "canceled"; code := Some "ERR_CANCELED"; response := None |}.

(** Exchanges that fail on every invocation, with a network error or
    with an abort, in a world that counts the invocations. *)
Definition failing (n : nat) : Outcome * nat := (Rejected networkError, S n).
Definition aborting (n : nat) : Outcome * nat := (Rejected abortError, S n).

(** A 400 whose body has an empty [message] next to an [error]. *)
Definition emptyMessageError : AxiosError :=
  httpError 400 (VObj (<["error" := VStr "boom"]> {["message" := VStr ""]})).

(** A failure whose status and transport code are present but falsy. *)
Definition falsyFieldsError : AxiosError :=
  {| message := "timeout"; code := Some ""; response := Some (responseOf 0 (VObj ∅)) |}.

(** A failure whose response carries the status 0. *)
Definition statusZeroError : AxiosError := httpError 0 VUndefined.

(** A closed world: nothing to observe, a random source that always
    draws 0, and exchanges with a fixed outcome. *)
Definition idle : State unit := {| world := tt; log := [] |}.
Definition zeroDraw (w : unit) : Q * unit := (0%Q, w).
Definition noElapse (ms : option Q) (w : unit) : unit := w.
Definition always (o : Outcome) (w : unit) : Outcome * unit := (o, w).

(** A policy override that only sets [retries]. *)
Definition withRetries (n : Z) : option RetryOverride :=
  Some {| o_retries := Given n; o_baseDelayMs := Absent;
          o_maxDelayMs := Absent; o_jitter := Absent |}.

(** A policy override whose [retries] key is present and [undefined]. *)
Definition undefinedRetries : option RetryOverride :=
  Some {| o_retries := Undefined; o_baseDelayMs := Absent;
          o_maxDelayMs := Absent; o_jitter := Absent |}.

(** A call without options, and a transport that is always offline. *)
Definition noOptions : RequestOptions :=
  {| opt_params := VUndefined; opt_headers := VUndefined; opt_signal := VUndefined;
     opt_timeout := VUndefined; opt_responseType := VUndefined; opt_retry := None;
     opt_onUploadProgress := VUndefined; opt_fieldName := None |}.

Definition offline (req : Request) : unit -> Outcome * unit :=
  always (Rejected networkError).

(** A transport that answers every request with 200 and the payload 1,
    and a call whose options hold [retry: { retries: undefined }]. *)
Definition online (req : Request) : unit -> Outcome * unit :=
  always (Resolved (responseOf 200 (VNum 1))).

Definition undefinedRetriesOptions : RequestOptions :=
  {| opt_params := VUndefined; opt_headers := VUndefined; opt_signal := VUndefined;
     opt_timeout := VUndefined; opt_responseType := VUndefined;
     opt_retry := undefinedRetries;
     opt_onUploadProgress := VUndefined; opt_fieldName := None |}.

Definition noFilename (header : string) : option string := None.

(** A service that is unavailable (503) for the first two exchanges and
    then answers [{ id: 1 }]; the world counts the exchanges. *)
Definition recovering (n : nat) : Outcome * nat :=
  if (n <? 2)%nat
  then (Rejected (httpError 503 VUndefined), S n)
  else (Resolved (responseOf 200 (VObj {["id" := VNum 1]})), S n).

Definition steadyPolicy : option RetryOverride :=
  Some {| o_retries := Given 2; o_baseDelayMs := Given 100%Q;
          o_maxDelayMs := Given 100%Q; o_jitter := Given false |}.

(** ** Further vocabulary *)

(** A string made of white space only (or empty). *)
Fixpoint blank (s : string) : bool :=
  match s with
  | EmptyString => true
  | String c s' => is_space c && blank s'
  end.

(** The log of a call that waited [ws] between its exchanges: one
    exchange, then a wait and an exchange for each element of [ws]. *)
Fixpoint schedule (ws : list (option Q)) : list Event :=
  match ws with
  | [] => [EvExchange]
  | w :: ws' => EvExchange :: EvWait w :: schedule ws'
  end.



(** The delays before the retries [first], [first + 1], ... of a policy
    without jitter. *)
Fixpoint plainDelays (o : RetryOptions) (first : Z) (n : nat) : list Q :=
  match n with
  | O => []
  | S n' => expDelay first o :: plainDelays o (first + 1) n'
  end.

(** A failure the classifier retries by its status: none, 0, or 5xx. *)
Definition transientStatus (err : AxiosError) : Prop :=
  match httpStatus err with
  | None => True
  | Some s => s = 0 \/ 500 <= s < 600
  end.

(** A world that only counts exchanges: the random source and the
    passage of time leave the count alone. *)
Definition countDraw (n : nat) : Q * nat := (0%Q, n).
Definition countElapse (ms : option Q) (n : nat) : nat := n.

(** A service that is unavailable (503) for good. *)
Definition unavailable : unit -> Outcome * unit :=
  always (Rejected (httpError 503 VUndefined)).

(** A call that returns a promise fulfilled with a result: it neither
    throws nor rejects. *)
Definition settlesToResult {N : Type} (c : Completion * State N) : Prop :=
  exists v, fst c = Returns (Fulfilled v) /\ isResult v.

(** The Axios configuration [download] builds from its options. *)
Definition blobConfig (o : RequestOptions) : AxiosRequestConfig :=
  {| cfg_params := opt_params o; cfg_headers := opt_headers o;
     cfg_signal := opt_signal o; cfg_timeout := opt_timeout o;
     cfg_responseType := VStr "blob"; cfg_onUploadProgress := VUndefined |}.

(** The Axios configuration [upload] builds from its options. *)
Definition multipartConfig (o : RequestOptions) : AxiosRequestConfig :=
  {| cfg_params := VUndefined;
     cfg_headers :=
       VObj (<["Content-Type" := VStr "multipart/form-data"]>
               (spread (js_or (opt_headers o) (VObj ∅))));
     cfg_signal := opt_signal o; cfg_timeout := opt_timeout o;
     cfg_responseType := VUndefined;
     cfg_onUploadProgress := opt_onUploadProgress o |}.

(** The world of the [run] inside [download]: the transport's state
    next to the captured [response] variable. *)
Definition withCapture {N : Type} (st : State N) (c : option AxiosResponse)
    : State (N * option AxiosResponse) :=
  {| world := (world st, c); log := log st |}.

Definition liftRandom {N : Type} (random : N -> Q * N)
    (w : N * option AxiosResponse) : Q * (N * option AxiosResponse) :=
  let '(r, n) := random (fst w) in (r, (n, snd w)).

Definition liftElapse {N : Type} (elapse : option Q -> N -> N) (ms : option Q)
    (w : N * option AxiosResponse) : N * option AxiosResponse :=
  (elapse ms (fst w), snd w).

(** The Axios configuration of the GET that [list] makes. *)
Definition listConfig (query : value) (o : RequestOptions) : AxiosRequestConfig :=
  {| cfg_params := VObj (spread query ∪ spread (opt_params o));
     cfg_headers := opt_headers o; cfg_signal := opt_signal o;
     cfg_timeout := opt_timeout o; cfg_responseType := opt_responseType o;
     cfg_onUploadProgress := VUndefined |}.

(** A value [upload] treats as a mapping of fields: an object or an
    array, but not a blob. *)
Definition isMapping (v : value) : Prop :=
  match v with
  | VObj _ | VArr _ => True
  | _ => False
  end.

(** A value [upload] rejects: a primitive, [null] or [undefined]. *)
Definition isPrimitive (v : value) : Prop :=
  match v with
  | VObj _ | VArr _ | VBlob _ => False
  | _ => True
  end.

(** The completion of a call that returns the promise of [run] on the
    exchange [fn]. *)
Definition resolvesWith {N : Type} (random : N -> Q * N)
    (elapse : option Q -> N -> N)
    (fn : N -> Outcome * N) (retry : option RetryOverride) (st : State N)
    : Completion * State N :=
  (Returns (Fulfilled (fst (run random elapse fn retry st))),
   snd (run random elapse fn retry st)).

(** ** The file-name pattern of [download]

    [download] looks for the file name with the regular expression
    [filename], then any run of characters other than [;], [=] and line
    feed, then [=], then group 1: either a quote (group 2), a lazy run of
    any characters and the same quote again, or else a run of characters
    other than [;] and line feed.  Below are the fragment of regular
    expressions it needs, with the backtracking semantics of the
    language (first alternative first, greedy runs longest first, lazy
    runs shortest first, leftmost match), and the pattern itself. *)

Inductive Atom :=
| Lit (c : ascii)                  (* the character itself *)
| OneOf (cs : list ascii)          (* a character class *)
| NoneOf (cs : list ascii)         (* a negated character class *)
| AnyChar.                         (* the dot: anything but a line terminator *)

Inductive Regex :=
| RAtom (a : Atom)
| RStar (a : Atom)                 (* greedy repetition of an atom *)
| RStarLazy (a : Atom)             (* lazy repetition of an atom *)
| RSeq (r1 r2 : Regex)
| RAlt (r1 r2 : Regex)
| RGroup (n : nat) (r : Regex)     (* capture group number n *)
| RBackref (n : nat).

Definition LF : ascii := ascii_of_nat 10.
Definition CR : ascii := ascii_of_nat 13.
Definition dquote : ascii := ascii_of_nat 34.
Definition squote : ascii := ascii_of_nat 39.

Definition among (cs : list ascii) (c : ascii) : bool :=
  existsb (Ascii.eqb c) cs.

Definition atomMatches (a : Atom) (c : ascii) : bool :=
  match a with
  | Lit x => Ascii.eqb c x
  | OneOf cs => among cs c
  | NoneOf cs => negb (among cs c)
  | AnyChar => negb (among [LF; CR] c)
  end.

Fixpoint takeStr (n : nat) (s : string) : string :=
  match n, s with
  | S n', String c s' => String c (takeStr n' s')
  | _, _ => EmptyString
  end.

(** What was consumed between the input [s] and its suffix [s']. *)
Definition consumed (s s' : string) : string :=
  takeStr (String.length s - String.length s') s.

Fixpoint stripPrefix (t s : string) : option string :=
  match t, s with
  | EmptyString, _ => Some s
  | String a t', String b s' => if Ascii.eqb a b then stripPrefix t' s' else None
  | String _ _, EmptyString => None
  end.

Fixpoint starGreedy {A : Type} (a : Atom) (s : string) (k : string -> option A)
    : option A :=
  match s with
  | String c s' =>
      if atomMatches a c then
        match starGreedy a s' k with
        | Some x => Some x
        | None => k s
        end
      else k s
  | EmptyString => k s
  end.

Fixpoint starLazy {A : Type} (a : Atom) (s : string) (k : string -> option A)
    : option A :=
  match k s with
  | Some x => Some x
  | None =>
      match s with
      | String c s' => if atomMatches a c then starLazy a s' k else None
      | EmptyString => None
      end
  end.

(** Matching [r] at the start of [s], then continuing with [k] on the
    rest of the input and the captures; [None] makes the matcher
    backtrack. *)
Fixpoint matchAt {A : Type} (r : Regex) (s : string) (caps : gmap nat string)
    (k : string -> gmap nat string -> option A) : option A :=
  match r with
  | RAtom a =>
      match s with
      | String c s' => if atomMatches a c then k s' caps else None
      | EmptyString => None
      end
  | RStar a => starGreedy a s (fun s' => k s' caps)
  | RStarLazy a => starLazy a s (fun s' => k s' caps)
  | RSeq r1 r2 => matchAt r1 s caps (fun s' caps' => matchAt r2 s' caps' k)
  | RAlt r1 r2 =>
      match matchAt r1 s caps k with
      | Some x => Some x
      | None => matchAt r2 s caps k
      end
  | RGroup n r1 =>
      matchAt r1 s caps (fun s' caps' => k s' (<[n := consumed s s']> caps'))
  | RBackref n =>
      match caps !! n with
      | Some t =>
          match stripPrefix t s with
          | Some s' => k s' caps
          | None => None
          end
      | None => k s caps
      end
  end.

(** The captures of the leftmost match of [r] in [s]. *)
Fixpoint search (r : Regex) (s : string) : option (gmap nat string) :=
  match matchAt r s ∅ (fun _ caps => Some caps) with
  | Some caps => Some caps
  | None =>
      match s with
      | String _ s' => search r s'
      | EmptyString => None
      end
  end.

(** The characters of [w] in sequence, then [rest]. *)
Fixpoint word (w : string) (rest : Regex) : Regex :=
  match w with
  | EmptyString => rest
  | String c w' => RSeq (RAtom (Lit c)) (word w' rest)
  end.

(** The two alternatives of group 1: a quoted value, or a bare one. *)
Definition quotedValue : Regex :=
  RSeq (RGroup 2 (RAtom (OneOf [squote; dquote])))
    (RSeq (RStarLazy AnyChar) (RBackref 2)).

Definition bareValue : Regex := RStar (NoneOf [";"%char; LF]).

(** What follows the word [filename]. *)
Definition assignment : Regex :=
  RSeq (RStar (NoneOf [";"; "="; LF]%char))
    (RSeq (RAtom (Lit "="%char)) (RGroup 1 (RAlt quotedValue bareValue))).

Definition filenamePattern : Regex := word "filename" assignment.

(** [contentDisposition.match(pattern)], then [matches[1]]. *)
Definition matchFilenameJS (header : string) : option string :=
  search filenamePattern header ≫= (fun caps => caps !! 1%nat).

(** No character of [s] is among [cs]. *)
Fixpoint lacks (cs : list ascii) (s : string) : bool :=
  match s with
  | EmptyString => true
  | String c s' => negb (among cs c) && lacks cs s'
  end.

(** A response with the given [content-disposition] header. *)
Definition withDisposition (header : string) (d : value) : AxiosResponse :=
  {| data := d; status := 200; headers := {["content-disposition" := header]} |}.

(** What may follow a bare value: the end of the header, [;] or a line
    feed. *)
Definition endsValue (rest : string) : Prop :=
  match rest with
  | EmptyString => True
  | String c _ => among [";"%char; LF] c = true
  end.

(** A transport that answers every request with the same blob, named
    by its [content-disposition] header. *)
Definition fileServer (req : Request) : unit -> Outcome * unit :=
  always (Resolved (withDisposition "attachment; filename=a.txt" (VBlob 7))).

(** * Properties *)

(** ** Values and the canonical shape *)

Lemma getProp_mkResult_status b d : getProp (mkResult b d) "status" = VBool b.
Proof. unfold mkResult, getProp. by simplify_map_eq. Qed.

Lemma getProp_mkResult_data b d : getProp (mkResult b d) "data" = d.
Proof. unfold mkResult, getProp. by simplify_map_eq. Qed.

Lemma canonical_mkResult b d : canonical b (mkResult b d).
Proof.
  exists (<["data" := d]> {["status" := VBool b]}). split; [done|].
  split; [by simplify_map_eq | exists d; by simplify_map_eq].
Qed.

Lemma followsContract_obj o :
  followsContract (VObj o) =
  bool_decide (is_Some (o !! "status")) && bool_decide (is_Some (o !! "data")).
Proof. reflexivity. Qed.

Lemma followsContract_inv p :
  followsContract p = true ->
  exists o, p = VObj o /\ is_Some (o !! "status") /\ is_Some (o !! "data").
Proof.
  unfold followsContract. intros H.
  apply andb_prop in H as [H Hd]. apply andb_prop in H as [H Hs].
  apply andb_prop in H as [_ Ht].
  destruct p as [| | | | | |l|o];
    try (vm_compute in Ht; discriminate); try (vm_compute in Hs; discriminate).
  apply bool_decide_eq_true in Hs, Hd. eauto.
Qed.

Lemma canonical_followsContract b p :
  canonical b p -> followsContract p = true /\ getProp p "status" = VBool b.
Proof.
  intros (o & -> & Hs & Hd). rewrite followsContract_obj. split.
  - apply andb_true_intro. split; apply bool_decide_eq_true; [by rewrite Hs | done].
  - simpl. by rewrite Hs.
Qed.

Lemma followsContract_canonical b p :
  followsContract p = true -> getProp p "status" = VBool b -> canonical b p.
Proof.
  intros H Hst. apply followsContract_inv in H as (o & -> & [s Hs] & Hd).
  exists o. split; [done|]. split; [|done].
  simpl in Hst. rewrite Hs in Hst. simpl in Hst. by subst.
Qed.

(** ** Normalizers *)

Lemma normalizeSuccess_canonical res :
  canonical true (data res) -> normalizeSuccess res = data res.
Proof.
  intros H. apply canonical_followsContract in H as [H1 H2].
  unfold normalizeSuccess. by rewrite H1, H2.
Qed.

Lemma normalizeSuccess_wrap res :
  ~ canonical true (data res) -> normalizeSuccess res = mkResult true (data res).
Proof.
  intros H. unfold normalizeSuccess.
  destruct (followsContract (data res)) eqn:Hf; [|done].
  destruct (getProp (data res) "status") as [| |[]| | | | |] eqn:Hs; try done.
  exfalso. apply H. by apply followsContract_canonical.
Qed.

Lemma normalizeSuccess_status res :
  canonical true (normalizeSuccess res).
Proof.
  unfold normalizeSuccess.
  destruct (followsContract (data res)) eqn:Hf; [|apply canonical_mkResult].
  destruct (getProp (data res) "status") as [| |[]| | | | |] eqn:Hs;
    try apply canonical_mkResult.
  by apply followsContract_canonical.
Qed.

Lemma normalizeError_canonical err :
  canonical false (errorBody err) -> normalizeError err = errorBody err.
Proof.
  intros H. apply canonical_followsContract in H as [H1 H2].
  unfold normalizeError. fold (errorBody err). by rewrite H1, H2.
Qed.

(** C8 (as amended).  For every error whose body is not a canonical
    [{status:false,data}], [normalizeError] returns a failure whose data
    [d] has: as [message] the first truthy one of the body's [message]
    field, the body's [error] field and the transport error's own
    message, else the text "Request failed"; every other field of a
    structured body, unchanged; [statusCode] set to the HTTP status when
    the error carries a non-zero one; [code] set to the transport code
    when the error carries a non-empty one (a body field named
    [statusCode] or [code] is kept only when nothing is attached). *)
Theorem normalizeError_synthesizes err :
  ~ canonical false (errorBody err) ->
  exists d,
    normalizeError err = mkResult false (VObj d) /\
    d !! "message" = Some (chosenMessage err) /\
    (forall k, k <> "message" -> k <> "statusCode" -> k <> "code" ->
               d !! k = mergedBody err !! k) /\
    d !! "statusCode" =
      match httpStatus err with
      | Some s => if s =? 0 then mergedBody err !! "statusCode" else Some (VNum s)
      | None => mergedBody err !! "statusCode"
      end /\
    d !! "code" =
      match code err with
      | Some c => if String.eqb c "" then mergedBody err !! "code" else Some (VStr c)
      | None => mergedBody err !! "code"
      end.
Proof.
  intros Hn. unfold normalizeError. fold (errorBody err).
  assert (Hp : (if followsContract (errorBody err)
                then match getProp (errorBody err) "status" with
                     | VBool false => true | _ => false end
                else false) = false).
  { destruct (followsContract (errorBody err)) eqn:Hf; [|done].
    destruct (getProp (errorBody err) "status") as [| |[]| | | | |] eqn:Hs; try done.
    exfalso. apply Hn. by apply followsContract_canonical. }
  rewrite Hp.
  assert (Hm : js_or (getProp (errorBody err) "message")
                 (js_or (getProp (errorBody err) "error")
                    (js_or (VStr (message err)) (VStr "Request failed")))
               = chosenMessage err).
  { unfold chosenMessage, js_or. simpl.
    destruct (truthy (getProp (errorBody err) "message")); [done|].
    destruct (truthy (getProp (errorBody err) "error")); done. }
  rewrite Hm.
  eexists. split; [reflexivity|].
  unfold mergedBody, httpStatus.
  destruct (truthy (errorBody err) && String.eqb (typeof (errorBody err)) "object");
    destruct (response err) as [r|]; simpl;
    try destruct (status r =? 0) eqn:Hz; simpl;
    destruct (code err) as [c|]; simpl;
    try destruct (String.eqb c "") eqn:Hc; simpl;
    repeat split; intros; by simplify_map_eq.
Qed.

Lemma normalizeError_status err : canonical false (normalizeError err).
Proof.
  destruct (followsContract (errorBody err)) eqn:Hf.
  - destruct (getProp (errorBody err) "status") as [| |[]| | | | |] eqn:Hs.
    4: { assert (Hc : canonical false (errorBody err))
           by by apply followsContract_canonical.
         rewrite (normalizeError_canonical _ Hc). exact Hc. }
    all: unfold normalizeError; fold (errorBody err); rewrite Hf, Hs;
      apply canonical_mkResult.
  - unfold normalizeError. fold (errorBody err). rewrite Hf. apply canonical_mkResult.
Qed.

Lemma normalizeError_synthesizes_witness :
  ~ canonical false (errorBody networkError) /\
  exists d, normalizeError networkError = mkResult false (VObj d) /\
            d !! "message" = Some (VStr "Network Error").
Proof.
  assert (H : ~ canonical false (errorBody networkError)).
  { intros (o & Heq & _). discriminate Heq. }
  split; [exact H|].
  destruct (normalizeError_synthesizes networkError H) as (d & Hd & Hm & _).
  exists d. split; [exact Hd | exact Hm].
Defined.

(** C8 (as stated) fails on values that are present but falsy: a body
    whose [message] field is the empty string is not the source of the
    message (the [error] field is), and a status of 0 or an empty
    transport code is not attached. *)
Lemma normalizeError_skips_falsy_fields :
  (~ canonical false (errorBody emptyMessageError) /\
   spread (errorBody emptyMessageError) !! "message" = Some (VStr "") /\
   getProp (getProp (normalizeError emptyMessageError) "data") "message" = VStr "boom" /\
   getProp (getProp (normalizeError emptyMessageError) "data") "message" <> VStr "") /\
  (~ canonical false (errorBody falsyFieldsError) /\
   httpStatus falsyFieldsError = Some 0 /\
   code falsyFieldsError = Some "" /\
   normalizeError falsyFieldsError
     = mkResult false (VObj {["message" := VStr "timeout"]})).
Proof.
  split; split.
  - intros (o & Heq & Hs & _). injection Heq as <-. vm_compute in Hs. discriminate.
  - split; [reflexivity|]. split; [reflexivity|]. vm_compute. discriminate.
  - intros (o & Heq & Hs & _). injection Heq as <-. vm_compute in Hs. discriminate.
  - split; [reflexivity|]. split; reflexivity.
Qed.

(** C7.  Normalization is idempotent on canonical payloads: a success
    whose payload is [{status:true,data:X}] is returned unchanged, and so
    is an error whose response body is [{status:false,data:E}] (also when
    the payload carries further fields). *)
Theorem normalization_idempotent :
  (forall res X, data res = mkResult true X -> normalizeSuccess res = mkResult true X) /\
  (forall err E, errorBody err = mkResult false E -> normalizeError err = mkResult false E) /\
  (forall res, canonical true (data res) -> normalizeSuccess res = data res) /\
  (forall err, canonical false (errorBody err) -> normalizeError err = errorBody err).
Proof.
  repeat split.
  - intros res X H. rewrite <- H. apply normalizeSuccess_canonical.
    rewrite H. apply canonical_mkResult.
  - intros err E H. rewrite <- H. apply normalizeError_canonical.
    rewrite H. apply canonical_mkResult.
  - apply normalizeSuccess_canonical.
  - apply normalizeError_canonical.
Qed.

Lemma normalization_idempotent_witness :
  normalizeSuccess (responseOf 200 (mkResult true (VNum 7))) = mkResult true (VNum 7) /\
  normalizeError (httpError 422 (mkResult false (VStr "no"))) = mkResult false (VStr "no").
Proof.
  destruct normalization_idempotent as (Hs & He & _ & _).
  split.
  - apply (Hs (responseOf 200 (mkResult true (VNum 7))) (VNum 7)). reflexivity.
  - apply (He (httpError 422 (mkResult false (VStr "no"))) (VStr "no")). reflexivity.
Defined.

(** C10.  The discriminant of a normalized result follows the direction
    of the transport outcome: [normalizeSuccess] always yields
    [status = true] -- a body shaped [{status:false,data:E}] is wrapped as
    the data of a success, not passed through -- and [normalizeError]
    always yields [status = false]. *)
Theorem normalizers_keep_direction :
  (forall res, getProp (normalizeSuccess res) "status" = VBool true) /\
  (forall res, canonical false (data res) ->
               normalizeSuccess res = mkResult true (data res)) /\
  (forall err, getProp (normalizeError err) "status" = VBool false).
Proof.
  repeat split.
  - intros res. apply (canonical_followsContract true), normalizeSuccess_status.
  - intros res (o & Ho & Hs & _). apply normalizeSuccess_wrap.
    intros (o' & Ho' & Hs' & _). rewrite Ho in Ho'. injection Ho' as <-.
    rewrite Hs in Hs'. discriminate.
  - intros err. apply (canonical_followsContract false), normalizeError_status.
Qed.

Lemma normalizers_keep_direction_witness :
  normalizeSuccess (responseOf 200 (mkResult false (VStr "no")))
  = mkResult true (mkResult false (VStr "no")).
Proof.
  apply (proj1 (proj2 normalizers_keep_direction)
           (responseOf 200 (mkResult false (VStr "no")))).
  apply canonical_mkResult.
Defined.

(** ** Double-precision rounding *)

Section Rounding.
Local Open Scope Q_scope.

Lemma pow2_pos e : 0 < pow2 e.
Proof. apply Qpower_0_lt. reflexivity. Qed.

Lemma pow2_add a b : pow2 (a + b) == pow2 a * pow2 b.
Proof. apply Qpower_plus. discriminate. Qed.

Lemma pow2_le a b : (a <= b)%Z -> pow2 a <= pow2 b.
Proof. intros H. apply Qpower_le_compat_l; [exact H | discriminate]. Qed.

Lemma pow2_lt a b : (a < b)%Z -> pow2 a < pow2 b.
Proof. intros H. apply Qpower_lt_compat_l; [exact H | reflexivity]. Qed.

Lemma pow2_lt_inv a b : pow2 a < pow2 b -> (a < b)%Z.
Proof. intros H. apply (Qpower_lt_compat_l_inv 2); [exact H | reflexivity]. Qed.

Lemma pow2_Z n : (0 <= n)%Z -> pow2 n == inject_Z (2 ^ n).
Proof. intros H. unfold pow2. rewrite (Zpower_Qpower 2 n H). reflexivity. Qed.

Lemma pow2_cancel x q : x / pow2 q * pow2 q == x.
Proof. field. pose proof (pow2_pos q). lra. Qed.

Lemma div_pow2_le x y q : x <= y -> x / pow2 q <= y / pow2 q.
Proof.
  intros H. unfold Qdiv. apply Qmult_le_compat_r; [exact H|].
  apply Qlt_le_weak, Qinv_lt_0_compat, pow2_pos.
Qed.

Lemma pow2_div a b : pow2 a / pow2 b == pow2 (a - b).
Proof. unfold pow2. rewrite Qpower_minus by discriminate. reflexivity. Qed.

(** [ilog2] is the floor of the binary logarithm. *)
Lemma ilog2_spec x : 0 < x -> pow2 (ilog2 x) <= x /\ x < pow2 (ilog2 x + 1).
Proof.
  intros Hx. destruct x as [n d]. unfold ilog2. cbn [Qnum Qden].
  assert (Hn : (0 < n)%Z).
  { unfold Qlt in Hx. simpl in Hx. lia. }
  set (a := Z.log2 n). set (b := Z.log2 (Z.pos d)).
  destruct (Z.log2_spec n Hn) as [Ha1 Ha2]. fold a in Ha1, Ha2.
  destruct (Z.log2_spec (Z.pos d) ltac:(lia)) as [Hb1 Hb2]. fold b in Hb1, Hb2.
  assert (Ha0 : (0 <= a)%Z) by apply Z.log2_nonneg.
  assert (Hb0 : (0 <= b)%Z) by apply Z.log2_nonneg.
  set (D := inject_Z (Z.pos d)). set (N := inject_Z n).
  assert (HD : 0 < D) by (unfold D; rewrite <- (Zlt_Qlt 0); lia).
  assert (HxD : (n # d) * D == N).
  { unfold D, N. rewrite (Qmake_Qdiv n d). field. 
    intros H. unfold Qeq in H. simpl in H. lia. }
  assert (HN1 : pow2 a <= N).
  { rewrite (pow2_Z a Ha0). unfold N. rewrite <- Zle_Qle. exact Ha1. }
  assert (HN2 : N < pow2 (a + 1)).
  { rewrite (pow2_Z (a + 1)) by lia. unfold N. rewrite <- Zlt_Qlt. exact Ha2. }
  assert (HD1 : pow2 b <= D).
  { rewrite (pow2_Z b Hb0). unfold D. rewrite <- Zle_Qle. exact Hb1. }
  assert (HD2 : D < pow2 (b + 1)).
  { rewrite (pow2_Z (b + 1)) by lia. unfold D. rewrite <- Zlt_Qlt. exact Hb2. }
  assert (Hup : (n # d) < pow2 (a - b + 1)).
  { apply (Qmult_lt_r _ _ D HD). rewrite HxD.
    apply Qlt_le_trans with (pow2 (a + 1)); [exact HN2|].
    replace (a + 1)%Z with ((a - b + 1) + b)%Z by lia. rewrite pow2_add.
    apply Qmult_le_l; [apply pow2_pos | exact HD1]. }
  assert (Hlo : pow2 (a - b - 1) < (n # d)).
  { apply (Qmult_lt_r _ _ D HD). rewrite HxD.
    apply Qlt_le_trans with (pow2 a); [|exact HN1].
    replace a with ((a - b - 1) + (b + 1))%Z at 2 by lia. rewrite pow2_add.
    apply Qmult_lt_l; [apply pow2_pos | exact HD2]. }
  destruct (Qle_bool (pow2 (a - b)) (n # d)) eqn:E.
  - apply Qle_bool_iff in E. split; [exact E | exact Hup].
  - assert (Hlt : (n # d) < pow2 (a - b)).
    { apply Qnot_le_lt. intros H. apply Qle_bool_iff in H. congruence. }
    split; [apply Qlt_le_weak, Hlo|].
    replace (a - b - 1 + 1)%Z with (a - b)%Z by lia. exact Hlt.
Qed.

Lemma ilog2_mono x y : 0 < x -> x <= y -> (ilog2 x <= ilog2 y)%Z.
Proof.
  intros Hx Hxy.
  destruct (ilog2_spec x Hx) as [H1 _].
  destruct (ilog2_spec y ltac:(lra)) as [_ H2].
  assert (H : pow2 (ilog2 x) < pow2 (ilog2 y + 1)) by lra.
  apply pow2_lt_inv in H. lia.
Qed.

Lemma nearestEven_bounds x : (Qfloor x <= nearestEven x <= Qfloor x + 1)%Z.
Proof.
  unfold nearestEven. destruct (x - inject_Z (Qfloor x) ?= 1 # 2); [|lia|lia].
  destruct (Z.even (Qfloor x)); lia.
Qed.

Lemma nearestEven_Z n : nearestEven (inject_Z n) = n.
Proof.
  unfold nearestEven. rewrite Qfloor_Z.
  destruct (Qcompare_spec (inject_Z n - inject_Z n) (1 # 2)) as [H|H|H];
    [exfalso; lra | reflexivity | exfalso; lra].
Qed.

(** Rounding to the nearest integer is monotone and leaves integers
    as they are. *)
Lemma nearestEven_mono x y : x <= y -> (nearestEven x <= nearestEven y)%Z.
Proof.
  intros Hxy. pose proof (Qfloor_resp_le x y Hxy) as Hf.
  destruct (Z.eq_dec (Qfloor x) (Qfloor y)) as [E|NE].
  - unfold nearestEven. rewrite <- E.
    destruct (Qcompare_spec (x - inject_Z (Qfloor x)) (1 # 2)) as [Hx|Hx|Hx];
      destruct (Qcompare_spec (y - inject_Z (Qfloor x)) (1 # 2)) as [Hy|Hy|Hy];
      try destruct (Z.even (Qfloor x)); try lia; exfalso; lra.
  - pose proof (nearestEven_bounds x). pose proof (nearestEven_bounds y). lia.
Qed.

Lemma roundPositive_eq x :
  roundPositive x ==
  inject_Z (nearestEven (x / pow2 (Z.max (ilog2 x - 52) (-1074))))
  * pow2 (Z.max (ilog2 x - 52) (-1074)).
Proof. unfold roundPositive. apply Qred_correct. Qed.

Lemma scaled_le_pow x q k :
  (q <= k)%Z -> x <= pow2 k -> inject_Z (nearestEven (x / pow2 q)) * pow2 q <= pow2 k.
Proof.
  intros Hq Hx.
  assert (H : (nearestEven (x / pow2 q) <= 2 ^ (k - q))%Z).
  { rewrite <- (nearestEven_Z (2 ^ (k - q))). apply nearestEven_mono.
    rewrite <- pow2_Z by lia. rewrite <- pow2_div. by apply div_pow2_le. }
  apply Qle_trans with (inject_Z (2 ^ (k - q)) * pow2 q).
  - apply Qmult_le_compat_r; [|apply Qlt_le_weak, pow2_pos].
    rewrite <- Zle_Qle. exact H.
  - rewrite <- pow2_Z by lia. rewrite <- pow2_add.
    replace (k - q + q)%Z with k by lia. apply Qle_refl.
Qed.

Lemma scaled_ge_pow x q k :
  (q <= k)%Z -> pow2 k <= x -> pow2 k <= inject_Z (nearestEven (x / pow2 q)) * pow2 q.
Proof.
  intros Hq Hx.
  assert (H : (2 ^ (k - q) <= nearestEven (x / pow2 q))%Z).
  { rewrite <- (nearestEven_Z (2 ^ (k - q))) at 1. apply nearestEven_mono.
    rewrite <- pow2_Z by lia. rewrite <- pow2_div. by apply div_pow2_le. }
  apply Qle_trans with (inject_Z (2 ^ (k - q)) * pow2 q).
  - rewrite <- pow2_Z by lia. rewrite <- pow2_add.
    replace (k - q + q)%Z with k by lia. apply Qle_refl.
  - apply Qmult_le_compat_r; [|apply Qlt_le_weak, pow2_pos].
    rewrite <- Zle_Qle. exact H.
Qed.

Lemma roundPositive_mono x y : 0 < x -> x <= y -> roundPositive x <= roundPositive y.
Proof.
  intros Hx Hxy. rewrite !roundPositive_eq.
  pose proof (ilog2_mono x y Hx Hxy) as He.
  destruct (ilog2_spec x Hx) as [Hx1 Hx2].
  destruct (ilog2_spec y ltac:(lra)) as [Hy1 Hy2].
  set (ex := ilog2 x) in *. set (ey := ilog2 y) in *.
  set (qx := Z.max (ex - 52) (-1074)). set (qy := Z.max (ey - 52) (-1074)).
  destruct (Z.eq_dec qx qy) as [E|NE].
  - rewrite <- E. apply Qmult_le_compat_r; [|apply Qlt_le_weak, pow2_pos].
    rewrite <- Zle_Qle. apply nearestEven_mono. by apply div_pow2_le.
  - assert (Hq : (qx < qy)%Z) by (unfold qx, qy in *; lia).
    assert (Hqy : qy = (ey - 52)%Z) by (unfold qx, qy in *; lia).
    assert (Hex : (ex + 1 <= ey)%Z) by (unfold qx, qy in *; lia).
    apply Qle_trans with (pow2 ey).
    + apply scaled_le_pow; [lia|].
      apply Qle_trans with (pow2 (ex + 1)); [lra | by apply pow2_le].
    + apply scaled_ge_pow; [lia | exact Hy1].
Qed.

Lemma roundPositive_nonneg x : 0 < x -> 0 <= roundPositive x.
Proof.
  intros Hx. rewrite roundPositive_eq.
  apply Qmult_le_0_compat; [|apply Qlt_le_weak, pow2_pos].
  rewrite <- (Zle_Qle 0). 
  pose proof (nearestEven_bounds (x / pow2 (Z.max (ilog2 x - 52) (-1074)))) as [H _].
  assert (H0 : (0 <= Qfloor (x / pow2 (Z.max (ilog2 x - 52) (-1074))))%Z).
  { rewrite <- (Qfloor_Z 0). apply Qfloor_resp_le.
    apply Qlt_le_weak, Qlt_shift_div_l; [apply pow2_pos|].
    change (inject_Z 0) with 0. rewrite Qmult_0_l. exact Hx. }
  lia.
Qed.

Lemma round64_pos x : 0 < x -> round64 x = roundPositive x.
Proof.
  intros H. unfold round64.
  destruct (Qcompare_spec x 0) as [H'|H'|H']; [exfalso; lra | exfalso; lra | reflexivity].
Qed.

Lemma round64_neg x : x < 0 -> round64 x = - roundPositive (- x).
Proof.
  intros H. unfold round64.
  destruct (Qcompare_spec x 0) as [H'|H'|H']; [exfalso; lra | reflexivity | exfalso; lra].
Qed.

Lemma round64_zero x : x == 0 -> round64 x = 0.
Proof.
  intros H. unfold round64.
  destruct (Qcompare_spec x 0) as [H'|H'|H']; [reflexivity | exfalso; lra | exfalso; lra].
Qed.

(** Rounding is monotone. *)
Lemma round64_mono x y : x <= y -> round64 x <= round64 y.
Proof.
  intros Hxy.
  destruct (Q_dec x 0) as [[Hx|Hx]|Hx]; destruct (Q_dec y 0) as [[Hy|Hy]|Hy];
    try (exfalso; lra).
  - rewrite (round64_neg x Hx), (round64_neg y Hy).
    apply Qopp_le_compat. apply roundPositive_mono; lra.
  - rewrite (round64_neg x Hx), (round64_pos y Hy).
    pose proof (roundPositive_nonneg (- x) ltac:(lra)).
    pose proof (roundPositive_nonneg y Hy). lra.
  - rewrite (round64_neg x Hx), (round64_zero y Hy).
    pose proof (roundPositive_nonneg (- x) ltac:(lra)). lra.
  - rewrite (round64_pos x Hx), (round64_pos y Hy). by apply roundPositive_mono.
  - rewrite (round64_zero x Hx), (round64_pos y Hy). by apply roundPositive_nonneg.
  - rewrite (round64_zero x Hx), (round64_zero y Hy). apply Qle_refl.
Qed.

Lemma round64_comp x y : x == y -> round64 x == round64 y.
Proof.
  intros H. apply Qle_antisym; apply round64_mono; rewrite H; apply Qle_refl.
Qed.

Lemma roundPositive_fixes x m e :
  0 < x -> x == inject_Z m * pow2 e -> (Z.abs m < 2 ^ 53)%Z -> (-1074 <= e)%Z ->
  roundPositive x == x.
Proof.
  intros Hx Hxm Hm He. rewrite roundPositive_eq.
  destruct (ilog2_spec x Hx) as [Hx1 _].
  set (q := Z.max (ilog2 x - 52) (-1074)).
  assert (Hmpos : (0 < m)%Z).
  { destruct (Z_lt_le_dec 0 m) as [|Hle]; [assumption|]. exfalso.
    assert (inject_Z m <= 0)
      by (change 0 with (inject_Z 0); rewrite <- Zle_Qle; exact Hle).
    pose proof (pow2_pos e).
    assert (inject_Z m * pow2 e <= 0 * pow2 e)
      by (apply Qmult_le_compat_r; lra).
    lra. }
  assert (Hlog : (ilog2 x < 53 + e)%Z).
  { apply pow2_lt_inv. apply Qle_lt_trans with x; [exact Hx1|].
    rewrite Hxm, pow2_add. apply Qmult_lt_r; [apply pow2_pos|].
    rewrite (pow2_Z 53) by lia. rewrite <- Zlt_Qlt. lia. }
  assert (Hq : (q <= e)%Z) by (unfold q; lia).
  assert (Hs : x / pow2 q == inject_Z (m * 2 ^ (e - q))).
  { rewrite Hxm, inject_Z_mult, <- (pow2_Z (e - q)) by lia.
    rewrite <- pow2_div. field. pose proof (pow2_pos q). lra. }
  assert (Hr : nearestEven (x / pow2 q) = (m * 2 ^ (e - q))%Z).
  { rewrite <- (nearestEven_Z (m * 2 ^ (e - q))).
    apply Z.le_antisymm; apply nearestEven_mono; rewrite Hs; apply Qle_refl. }
  rewrite Hr, <- Hs. apply pow2_cancel.
Qed.

(** Rounding leaves a representable number as it is. *)
Lemma round64_fixes x : representable x -> round64 x == x.
Proof.
  intros (m & e & Hxm & Hm & He).
  destruct (Q_dec x 0) as [[Hx|Hx]|Hx].
  - rewrite (round64_neg x Hx).
    rewrite (roundPositive_fixes (- x) (- m) e); [ring | lra | | lia | exact He].
    rewrite Hxm, inject_Z_opp. ring.
  - rewrite (round64_pos x Hx). by apply (roundPositive_fixes x m e).
  - rewrite (round64_zero x Hx). symmetry. exact Hx.
Qed.
End Rounding.

(** ** Backoff policy *)

Section Backoff.
Local Open Scope Q_scope.

Lemma representable_Z n : (Z.abs n < 2 ^ 53)%Z -> representable (inject_Z n).
Proof.
  intros H. exists n, 0%Z. split; [|lia].
  change (pow2 0) with 1. ring.
Qed.

Lemma representable_comp x y : x == y -> representable x -> representable y.
Proof. intros E (m & e & H). exists m, e. by rewrite <- E. Qed.

Lemma representable_pow2 k : (-1074 <= k)%Z -> representable (pow2 k).
Proof.
  intros H. exists 1%Z, k. split; [|lia].
  change (inject_Z 1) with 1. ring.
Qed.

Lemma representable_scale x k :
  (0 <= k)%Z -> representable x -> representable (x * pow2 k).
Proof.
  intros Hk (m & e & E & Hm & He). exists m, (e + k)%Z. split; [|lia].
  rewrite E, pow2_add. ring.
Qed.

(** Subtracting an integer from a representable number below 2^53
    that is not smaller than it gives a representable number. *)
Lemma representable_sub_int x n :
  representable x -> 0 <= inject_Z n -> inject_Z n <= x -> x < pow2 53 ->
  representable (x - inject_Z n).
Proof.
  intros (m & e & E & Hm & He) Hn0 Hnx Hx.
  assert (Hn : (0 <= n)%Z) by (by rewrite (Zle_Qle 0)).
  destruct (Z_le_gt_dec 0 e) as [Hpos|Hneg].
  - assert (Hxz : x == inject_Z (m * 2 ^ e)).
    { rewrite E, inject_Z_mult, <- pow2_Z by exact Hpos. reflexivity. }
    apply (representable_comp (inject_Z (m * 2 ^ e - n))).
    { unfold Z.sub. rewrite inject_Z_plus, inject_Z_opp, Hxz. ring. }
    apply representable_Z.
    rewrite Hxz in Hnx, Hx. rewrite <- Zle_Qle in Hnx.
    rewrite (pow2_Z 53) in Hx by lia. rewrite <- Zlt_Qlt in Hx. lia.
  - assert (Hle : (n * 2 ^ (- e) <= m)%Z).
    { rewrite Zle_Qle, inject_Z_mult, <- pow2_Z by lia.
      apply Qle_trans with (x * pow2 (- e)).
      - apply Qmult_le_compat_r; [exact Hnx | apply Qlt_le_weak, pow2_pos].
      - rewrite E, <- Qmult_assoc, <- pow2_add.
        replace (e + - e)%Z with 0%Z by lia. change (pow2 0) with 1.
        rewrite Qmult_1_r. apply Qle_refl. }
    assert (H2 : (0 <= 2 ^ (- e))%Z) by (apply Z.pow_nonneg; lia).
    exists (m - n * 2 ^ (- e))%Z, e. split; [|split; [nia | exact He]].
    unfold Z.sub. rewrite inject_Z_plus, inject_Z_opp, inject_Z_mult, <- pow2_Z by lia.
    rewrite E.
    assert (Hp : pow2 (- e) * pow2 e == 1).
    { rewrite <- pow2_add. replace (- e + e)%Z with 0%Z by lia. reflexivity. }
    transitivity (inject_Z m * pow2 e - inject_Z n * (pow2 (- e) * pow2 e)); [|ring].
    rewrite Hp. ring.
Qed.

Lemma round64_nonneg x : 0 <= x -> 0 <= round64 x.
Proof.
  intros H. change 0 with (round64 0) at 1. by apply round64_mono.
Qed.

(** The constant [0.3] of the code is the double nearest to 3/10, which
    lies just below it. *)
Lemma literal_03 : 0 <= round64 (3 # 10) /\ round64 (3 # 10) <= 3 # 10.
Proof. split; apply Qle_bool_iff; vm_compute; reflexivity. Qed.

(** For a delay that is a double, the code computes the capped
    exponential delay without any rounding error. *)
Lemma expDelay_exact attempt o :
  representable (baseDelayMs o) -> (1 <= attempt)%Z ->
  expDelay attempt o == exactExp attempt o.
Proof.
  intros Hb Ha. unfold expDelay, exactExp.
  apply Q.min_compat; [reflexivity|].
  assert (Hp : round64 (2 ^ (attempt - 1)) == 2 ^ (attempt - 1)).
  { apply round64_fixes, (representable_pow2 (attempt - 1)). lia. }
  rewrite (round64_comp _ (baseDelayMs o * 2 ^ (attempt - 1)))
    by (rewrite Hp; reflexivity).
  apply round64_fixes, (representable_scale _ (attempt - 1)); [lia | exact Hb].
Qed.

Lemma exactExp_nonneg attempt o :
  0 <= baseDelayMs o -> 0 <= maxDelayMs o -> 0 <= exactExp attempt o.
Proof.
  intros Hb Hm. unfold exactExp. apply Q.min_glb; [exact Hm|].
  apply Qmult_le_0_compat; [exact Hb|]. apply Qpower_0_le. discriminate.
Qed.

Lemma exactExp_representable attempt o :
  representable (baseDelayMs o) -> representable (maxDelayMs o) -> (1 <= attempt)%Z ->
  representable (exactExp attempt o).
Proof.
  intros Hb Hm Ha. unfold exactExp.
  destruct (Q.min_spec (maxDelayMs o) (baseDelayMs o * 2 ^ (attempt - 1)))
    as [[_ E]|[_ E]].
  - apply (representable_comp (maxDelayMs o)); [by symmetry | exact Hm].
  - apply (representable_comp (baseDelayMs o * pow2 (attempt - 1))); [by symmetry|].
    apply representable_scale; [lia | exact Hb].
Qed.

(** The jittered delay, computed in double precision from a delay [e]
    below 2^53: rounding never takes it out of the range from 70% of
    [e], rounded down, to [e]. *)
Lemma jitter_range (r e : Q) :
  representable e -> 0 <= e -> e < pow2 53 -> 0 <= r -> r < 1 ->
  inject_Z (Qfloor ((7 # 10) * e))
    <= inject_Z (Qfloor (round64 (e - round64 (round64 (r * e) * round64 (3 # 10)))))
  /\ inject_Z (Qfloor (round64 (e - round64 (round64 (r * e) * round64 (3 # 10))))) <= e.
Proof.
  intros Hrep He He53 Hr0 Hr1.
  destruct literal_03 as [Hc0 Hc1]. set (c := round64 (3 # 10)) in *.
  assert (Hfix : round64 e == e) by (by apply round64_fixes).
  assert (Ht0 : 0 <= round64 (r * e)).
  { apply round64_nonneg, Qmult_le_0_compat; assumption. }
  assert (Ht1 : round64 (r * e) <= e).
  { rewrite <- Hfix at 2. apply round64_mono.
    assert (r * e <= 1 * e) by (apply Qmult_le_compat_r; [lra | exact He]). lra. }
  set (t := round64 (r * e)) in *.
  assert (Hp0 : 0 <= t * c) by (apply Qmult_le_0_compat; assumption).
  assert (Hp1 : t * c <= e * (3 # 10)).
  { apply Qle_trans with (e * c).
    - apply Qmult_le_compat_r; assumption.
    - rewrite (Qmult_comm e c), (Qmult_comm e (3 # 10)).
      apply Qmult_le_compat_r; assumption. }
  set (n := Qfloor ((7 # 10) * e)).
  assert (Hn0 : 0 <= inject_Z n).
  { rewrite <- (Zle_Qle 0). unfold n. rewrite <- (Qfloor_Z 0).
    apply Qfloor_resp_le. change (inject_Z 0) with 0. lra. }
  assert (Hn1 : inject_Z n <= (7 # 10) * e) by apply Qfloor_le.
  assert (Hd : representable (e - inject_Z n)).
  { apply representable_sub_int; [exact Hrep | exact Hn0 | lra | exact He53]. }
  assert (Hrand0 : 0 <= round64 (t * c)) by (by apply round64_nonneg).
  assert (Hrand1 : round64 (t * c) <= e - inject_Z n).
  { rewrite <- (round64_fixes _ Hd). apply round64_mono. lra. }
  split.
  - rewrite <- Zle_Qle. rewrite <- (Qfloor_Z n) at 1. apply Qfloor_resp_le.
    assert (Hnr : representable (inject_Z n)).
    { apply representable_Z.
      assert (H53 : inject_Z n < inject_Z (2 ^ 53)).
      { rewrite <- pow2_Z by lia. lra. }
      rewrite <- Zlt_Qlt in H53. rewrite <- (Zle_Qle 0) in Hn0. lia. }
    rewrite <- (round64_fixes _ Hnr). apply round64_mono. lra.
  - apply Qle_trans with (round64 (e - round64 (t * c))); [apply Qfloor_le|].
    rewrite <- Hfix at 2. apply round64_mono. lra.
Qed.

(** C6 (as amended).  For a policy whose delays are non-negative
    doubles and an attempt from 1 to 1024, the code computes
    [exp = min(maxDelayMs, baseDelayMs * 2^(attempt-1))] exactly.
    Without jitter [computeBackoff] returns [exp] -- for
    [baseDelayMs = 300], [maxDelayMs = 2000] and attempts 1 to 5 these
    are 300, 600, 1200, 2000, 2000.  With jitter, [maxDelayMs] below
    2^53 and a draw [r] in [[0,1)], it returns the floor of
    [exp - r*exp*0.3] as evaluated in double precision, every operation
    rounded to nearest: this is at least [floor(0.7*exp)], at most
    [exp], and never above [maxDelayMs]. *)
Theorem computeBackoff_formula (r : Q) (attempt : Z) (o : RetryOptions) :
  finiteDouble (baseDelayMs o) -> finiteDouble (maxDelayMs o) ->
  0 <= baseDelayMs o -> 0 <= maxDelayMs o ->
  (1 <= attempt <= 1024)%Z ->
  expDelay attempt o == exactExp attempt o /\
  (jitter o = false -> computeBackoff r attempt o = expDelay attempt o) /\
  (jitter o = true -> maxDelayMs o < pow2 53 -> 0 <= r -> r < 1 ->
     computeBackoff r attempt o == jittered r attempt o /\
     inject_Z (Qfloor ((7 # 10) * exactExp attempt o)) <= computeBackoff r attempt o /\
     computeBackoff r attempt o <= exactExp attempt o /\
     computeBackoff r attempt o <= maxDelayMs o) /\
  List.map (fun a => computeBackoff r a tablePolicy) [1; 2; 3; 4; 5]%Z
    = List.map (fun a => Qmin 2000 (300 * 2 ^ (a - 1))) [1; 2; 3; 4; 5]%Z /\
  List.map (fun a => computeBackoff r a tablePolicy) [1; 2; 3; 4; 5]%Z
    = [300; 600; 1200; 2000; 2000].
Proof.
  intros [Hbr _] [Hmr _] Hb Hm [Ha _].
  pose proof (expDelay_exact attempt o Hbr Ha) as Hexact.
  split; [exact Hexact|].
  split; [|split; [|split; vm_compute; reflexivity]].
  - intros Hj. unfold computeBackoff. rewrite Hj. reflexivity.
  - intros Hj Hm53 Hr0 Hr1.
    pose proof (exactExp_nonneg attempt o Hb Hm) as He.
    pose proof (exactExp_representable attempt o Hbr Hmr Ha) as Hrep.
    rewrite <- Hexact in He |- *.
    apply (representable_comp _ _ (Qeq_sym _ _ Hexact)) in Hrep.
    assert (Hcap : expDelay attempt o <= maxDelayMs o) by apply Q.le_min_l.
    destruct (jitter_range r (expDelay attempt o) Hrep He ltac:(lra) Hr0 Hr1)
      as [Hlo Hhi].
    fold (jittered r attempt o) in Hlo, Hhi.
    assert (Hc : computeBackoff r attempt o == jittered r attempt o).
    { unfold computeBackoff. rewrite Hj. simpl negb. cbv iota.
      fold (expDelay attempt o). fold (jittered r attempt o).
      apply Q.min_r. lra. }
    rewrite Hc. repeat split; [exact Hlo | exact Hhi | lra].
Qed.

Lemma computeBackoff_formula_witness :
  computeBackoff (1 # 2) 3 DEFAULT_RETRY == 1020 /\
  inject_Z (Qfloor ((7 # 10) * exactExp 3 DEFAULT_RETRY))
    <= computeBackoff (1 # 2) 3 DEFAULT_RETRY /\
  computeBackoff (1 # 2) 3 tablePolicy = expDelay 3 tablePolicy.
Proof.
  assert (H300 : finiteDouble 300).
  { split; [apply (representable_Z 300); reflexivity | reflexivity]. }
  assert (H2000 : finiteDouble 2000).
  { split; [apply (representable_Z 2000); reflexivity | reflexivity]. }
  destruct (computeBackoff_formula (1 # 2) 3 DEFAULT_RETRY H300 H2000)
    as (_ & _ & Hj & _); [discriminate | discriminate | lia |].
  destruct (computeBackoff_formula (1 # 2) 3 tablePolicy H300 H2000)
    as (_ & Hn & _); [discriminate | discriminate | lia |].
  destruct Hj as (Heq & Hlo & _); [reflexivity | reflexivity | discriminate | reflexivity |].
  split; [rewrite Heq; vm_compute; reflexivity|].
  split; [exact Hlo | apply Hn; reflexivity].
Defined.

(** C6 (as stated) fails in double precision.  Under the default policy
    and at attempt 1, the draw [r = 2^-52] makes the code return 300
    where [floor(exp - r*0.3*exp)] is 299: the subtraction rounds back
    up to 300.  And for a delay beyond 2^53 the result can fall below
    [floor(0.7*exp)]. *)
Lemma jitter_formula_not_exact :
  0 <= pow2 (-52) /\ pow2 (-52) < 1 /\
  computeBackoff (pow2 (-52)) 1 DEFAULT_RETRY == 300 /\
  inject_Z (Qfloor (exactExp 1 DEFAULT_RETRY
                    - pow2 (-52) * (3 # 10) * exactExp 1 DEFAULT_RETRY)) == 299 /\
  ~ computeBackoff (pow2 (-52)) 1 DEFAULT_RETRY
    == inject_Z (Qfloor (exactExp 1 DEFAULT_RETRY
                         - pow2 (-52) * (3 # 10) * exactExp 1 DEFAULT_RETRY)) /\
  finiteDouble (maxDelayMs hugePolicy) /\
  computeBackoff (1 - pow2 (-53)) 1 hugePolicy
    < inject_Z (Qfloor ((7 # 10) * exactExp 1 hugePolicy)).
Proof.
  split; [discriminate|]. split; [reflexivity|].
  split; [vm_compute; reflexivity|]. split; [vm_compute; reflexivity|].
  split; [vm_compute; discriminate|]. split; [|vm_compute; reflexivity].
  split; [|reflexivity].
  exists 7506123709967389%Z, 2%Z. split; [vm_compute; reflexivity | lia].
Qed.
End Backoff.

(** ** Retriability classifier *)

Lemma isRetriable_no_status err : httpStatus err = None -> isRetriable err = true.
Proof. unfold isRetriable, httpStatus. by intros ->. Qed.

Lemma isRetriable_status err s :
  httpStatus err = Some s -> s <> 0 ->
  isRetriable err = (500 <=? s) && (s <? 600).
Proof.
  unfold isRetriable, httpStatus. intros -> Hs. simpl.
  destruct (s =? 0) eqn:E; [lia | done].
Qed.

(** ** Execution wrapper *)

Lemma attempts_app l1 l2 : attempts (l1 ++ l2) = (attempts l1 + attempts l2)%nat.
Proof. unfold attempts. by rewrite List.filter_app, length_app. Qed.

Section RunnerFacts.
Context {W : Type}.
Variable random : W -> Q * W.
Variable elapse : option Q -> W -> W.

(** One iteration of the loop. *)
Lemma runLoop_step fn retry maxAttempts attempt st :
  runLoop random elapse fn retry maxAttempts attempt st =
  if decide (attempt < maxAttempts) then
    match invoke fn st with
    | (Resolved res, st1) => (normalizeSuccess res, st1)
    | (Rejected err, st1) =>
        if (maxAttempts <=? attempt + 1) || negb (isRetriable err)
        then (normalizeError err, st1)
        else runLoop random elapse fn retry maxAttempts (attempt + 1)
               (backoffWait random elapse (attempt + 1) retry st1)
    end
  else (unexpectedError, st).
Proof.
  simp runLoop.
  destruct (Z_lt_dec attempt maxAttempts) as [Hlt|Hge]; simpl.
  - destruct (decide (attempt < maxAttempts)) as [_|]; [|contradiction].
    destruct (invoke fn st) as [[res|err] st1]; simpl; [reflexivity|].
    destruct ((maxAttempts <=? attempt + 1) || negb (isRetriable err)); reflexivity.
  - destruct (decide (attempt < maxAttempts)) as [|_]; [contradiction|reflexivity].
Qed.

(** The wait of one backoff, and what it does to the world. *)
Lemma backoffWait_inv attempt retry (st : State W) :
  exists r w,
    backoffWait random elapse attempt retry st =
      {| world := elapse (backoff r attempt retry) w;
         log := log st ++ [EvWait (backoff r attempt retry)] |} /\
    (w = world st \/ w = snd (random (world st))).
Proof.
  unfold backoffWait, delay. destruct (default false (retry_jitter retry)).
  - destruct (random (world st)) as [r w] eqn:Hr. exists r, w. simpl. auto.
  - exists 0%Q, (world st). auto.
Qed.

Lemma backoffWait_log attempt retry (st : State W) :
  exists ms, log (backoffWait random elapse attempt retry st) = log st ++ [EvWait ms].
Proof.
  destruct (backoffWait_inv attempt retry st) as (r & w & -> & _). simpl. eauto.
Qed.

Lemma invoke_eq (fn : W -> Outcome * W) (st : State W) o w :
  fn (world st) = (o, w) ->
  invoke fn st = (o, {| world := w; log := log st ++ [EvExchange] |}).
Proof. unfold invoke. by intros ->. Qed.

(** A first exchange that resolves ends the loop. *)
Lemma runLoop_resolved fn retry maxAttempts attempt (st : State W) res w :
  attempt < maxAttempts ->
  fn (world st) = (Resolved res, w) ->
  runLoop random elapse fn retry maxAttempts attempt st =
  (normalizeSuccess res, {| world := w; log := log st ++ [EvExchange] |}).
Proof.
  intros Hlt Hfn. rewrite runLoop_step.
  destruct (decide (attempt < maxAttempts)); [|lia].
  by rewrite (invoke_eq _ _ _ _ Hfn).
Qed.

(** A first exchange that fails with a failure that is not retriable
    ends the loop. *)
Lemma runLoop_terminal fn retry maxAttempts attempt (st : State W) err w :
  attempt < maxAttempts ->
  fn (world st) = (Rejected err, w) ->
  isRetriable err = false ->
  runLoop random elapse fn retry maxAttempts attempt st =
  (normalizeError err, {| world := w; log := log st ++ [EvExchange] |}).
Proof.
  intros Hlt Hfn Hr. rewrite runLoop_step.
  destruct (decide (attempt < maxAttempts)); [|lia].
  rewrite (invoke_eq _ _ _ _ Hfn), Hr. simpl. by rewrite orb_true_r.
Qed.

(** Whatever the exchange does, the loop returns a result, performs
    only exchanges and waits, and at most [maxAttempts - attempt]
    exchanges. *)
Lemma runLoop_result fn retry maxAttempts attempt st :
  isResult (fst (runLoop random elapse fn retry maxAttempts attempt st)) /\
  exists new,
    log (snd (runLoop random elapse fn retry maxAttempts attempt st)) = log st ++ new /\
    (attempts new <= Z.to_nat (maxAttempts - attempt))%nat.
Proof.
  remember (Z.to_nat (maxAttempts - attempt)) as n eqn:Hn.
  revert attempt st Hn. induction n as [|n IH]; intros attempt st Hn;
    rewrite runLoop_step; destruct (decide (attempt < maxAttempts)) as [Hlt|Hge];
    try lia.
  - simpl. split; [exists false; apply canonical_mkResult|].
    exists []. by rewrite app_nil_r.
  - destruct (fn (world st)) as [o w] eqn:Hfn. rewrite (invoke_eq _ _ _ _ Hfn).
    destruct o as [res|err].
    + simpl. split; [exists true; apply normalizeSuccess_status|].
      exists [EvExchange]. split; [done|]. cbn. lia.
    + destruct ((maxAttempts <=? attempt + 1) || negb (isRetriable err)).
      * simpl. split; [exists false; apply normalizeError_status|].
        exists [EvExchange]. split; [done|]. cbn. lia.
      * set (st2 := backoffWait random elapse (attempt + 1) retry _).
        destruct (IH (attempt + 1) st2 ltac:(lia)) as (Hres & new & Hlog & Hle).
        split; [exact Hres|].
        destruct (backoffWait_log (attempt + 1) retry
                    {| world := w; log := log st ++ [EvExchange] |}) as (ms & Hms).
        fold st2 in Hms. simpl in Hms.
        exists (EvExchange :: EvWait ms :: new). split.
        -- rewrite Hlog, Hms. by rewrite <- !app_assoc.
        -- change (EvExchange :: EvWait ms :: new)
             with ([EvExchange; EvWait ms] ++ new).
           rewrite attempts_app. cbn. lia.
Qed.

(** An exchange that always fails with retriable failures is invoked
    until the attempts are used up; the loop then ends in the world
    that the last invocation produced, with its failure. *)
Lemma runLoop_exhausts fn retry maxAttempts attempt st :
  (forall w, exists e w', fn w = (Rejected e, w') /\ isRetriable e = true) ->
  attempt < maxAttempts ->
  exists e w st' new,
    fn w = (Rejected e, world st') /\
    runLoop random elapse fn retry maxAttempts attempt st = (normalizeError e, st') /\
    log st' = log st ++ new /\
    attempts new = Z.to_nat (maxAttempts - attempt).
Proof.
  intros Hfn.
  remember (Z.to_nat (maxAttempts - attempt)) as n eqn:Hn.
  revert attempt st Hn. induction n as [|n IH]; intros attempt st Hn Hlt; [lia|].
  rewrite runLoop_step. destruct (decide (attempt < maxAttempts)); [|lia].
  destruct (Hfn (world st)) as (e & w & Hw & Hr).
  rewrite (invoke_eq _ _ _ _ Hw), Hr. simpl negb. rewrite orb_false_r.
  destruct (maxAttempts <=? attempt + 1) eqn:Hlast.
  - exists e, (world st), {| world := w; log := log st ++ [EvExchange] |}, [EvExchange].
    cbn [world log]. split; [exact Hw|]. split; [reflexivity|].
    split; [reflexivity|]. apply Z.leb_le in Hlast. cbn. lia.
  - apply Z.leb_gt in Hlast.
    set (st2 := backoffWait random elapse (attempt + 1) retry _).
    destruct (IH (attempt + 1) st2 ltac:(lia) ltac:(lia))
      as (e' & w' & st' & new & Hfrom & Hrun & Hlog & Hcount).
    destruct (backoffWait_log (attempt + 1) retry
                {| world := w; log := log st ++ [EvExchange] |}) as (ms & Hms).
    fold st2 in Hms. simpl in Hms.
    exists e', w', st', (EvExchange :: EvWait ms :: new).
    split; [exact Hfrom|]. split; [exact Hrun|]. split.
    + rewrite Hlog, Hms. by rewrite <- !app_assoc.
    + change (EvExchange :: EvWait ms :: new) with ([EvExchange; EvWait ms] ++ new).
      rewrite attempts_app, Hcount. cbn. lia.
Qed.

(** The same, seen from the exchange: a counter [calls] of the world
    that every invocation of the exchange advances by one, and that
    nothing else touches, is advanced by the loop by exactly the number
    of attempts that were left. *)
Lemma runLoop_counts (calls : W -> nat) fn retry maxAttempts attempt (st : State W) :
  (forall w, calls (snd (random w)) = calls w) ->
  (forall ms w, calls (elapse ms w) = calls w) ->
  (forall w, calls (snd (fn w)) = S (calls w)) ->
  (forall w, exists e w', fn w = (Rejected e, w') /\ isRetriable e = true) ->
  attempt < maxAttempts ->
  calls (world (snd (runLoop random elapse fn retry maxAttempts attempt st)))
  = (calls (world st) + Z.to_nat (maxAttempts - attempt))%nat.
Proof.
  intros Hrand Helapse Hcalls Hfn.
  remember (Z.to_nat (maxAttempts - attempt)) as n eqn:Hn.
  revert attempt st Hn. induction n as [|n IH]; intros attempt st Hn Hlt; [lia|].
  rewrite runLoop_step. destruct (decide (attempt < maxAttempts)); [|lia].
  destruct (Hfn (world st)) as (e & w & Hw & Hr).
  pose proof (Hcalls (world st)) as Hc. rewrite Hw in Hc. cbn [snd] in Hc.
  rewrite (invoke_eq _ _ _ _ Hw), Hr. simpl negb. rewrite orb_false_r.
  destruct (maxAttempts <=? attempt + 1) eqn:Hlast.
  - apply Z.leb_le in Hlast. cbn [snd world]. lia.
  - apply Z.leb_gt in Hlast.
    destruct (backoffWait_inv (attempt + 1) retry
                {| world := w; log := log st ++ [EvExchange] |})
      as (r & w1 & Hbw & Hw1).
    cbn [log world] in Hbw, Hw1. rewrite Hbw.
    rewrite (IH (attempt + 1)) by lia. cbn [world]. rewrite Helapse.
    destruct Hw1 as [-> | ->]; [|rewrite Hrand]; lia.
Qed.

(** [run] with an integer [retries] is the loop entered at attempt 0 with
    [1 + max(0, retries)] attempts; with an [undefined] one the loop is
    skipped. *)
Lemma run_numeric fn override (st : State W) n :
  retry_retries (mergeRetry override) = Some n ->
  run random elapse fn override st =
  runLoop random elapse fn (mergeRetry override) (1 + Z.max 0 n) 0 st.
Proof. intros H. unfold run, maxAttemptsOf. by rewrite H. Qed.

Lemma run_undefined fn override (st : State W) :
  retry_retries (mergeRetry override) = None ->
  run random elapse fn override st = (unexpectedError, st).
Proof. intros H. unfold run, maxAttemptsOf. by rewrite H. Qed.

Lemma unexpectedError_not_success res : unexpectedError <> normalizeSuccess res.
Proof.
  intros H. destruct (normalizeSuccess_status res) as (o & Ho & Hs & _).
  rewrite <- H in Ho. injection Ho as <-.
  by rewrite lookup_insert_ne, lookup_singleton_eq in Hs.
Qed.
End RunnerFacts.

Section RunnerProperties.
Context {W : Type}.
Variable random : W -> Q * W.
Variable elapse : option Q -> W -> W.

(** C1.  For every exchange function, every retry policy and every
    initial world, [run] returns -- it is a total function -- and what
    it returns is a result [{status:true,data}] or [{status:false,data}];
    a rejection or a throw of the exchange function is an outcome the
    loop handles, never one it passes on.  On the way it performs at
    most [1 + max(0, retries)] exchanges (and none at all when
    [retries] is [undefined]). *)
Theorem run_always_returns_result (fn : W -> Outcome * W)
    (override : option RetryOverride) (st : State W) :
  isResult (fst (run random elapse fn override st)) /\
  exists new,
    log (snd (run random elapse fn override st)) = log st ++ new /\
    (attempts new <=
       match retry_retries (mergeRetry override) with
       | Some retries => Z.to_nat (1 + Z.max 0 retries)
       | None => 0
       end)%nat.
Proof.
  destruct (retry_retries (mergeRetry override)) as [n|] eqn:Hn.
  - rewrite (run_numeric _ _ _ _ _ _ Hn).
    destruct (runLoop_result random elapse fn (mergeRetry override)
                (1 + Z.max 0 n) 0 st) as (Hres & new & Hlog & Hle).
    split; [exact Hres|]. exists new. split; [exact Hlog|].
    by rewrite Z.sub_0_r in Hle.
  - rewrite (run_undefined _ _ _ _ _ Hn). simpl.
    split; [exists false; apply canonical_mkResult|].
    exists []. split; [by rewrite app_nil_r | reflexivity].
Qed.

(** C2 (the input on which the code departs from it).  When the
    [retries] key of the options is present and [undefined],
    [maxAttempts] is NaN and the loop is skipped: [run] does not invoke
    the exchange, although its first invocation would have resolved,
    and returns the failure written after the loop -- the statement
    that, by its comment, is never reached.  For every integer
    [retries] the property holds (X24 below). *)
Theorem run_undefined_retries_skips_exchange (fn : W -> Outcome * W)
    (override : option RetryOverride) (st : State W) res w :
  fn (world st) = (Resolved res, w) ->
  retry_retries (mergeRetry override) = None ->
  run random elapse fn override st = (unexpectedError, st) /\
  attempts (log (snd (run random elapse fn override st))) = attempts (log st) /\
  fst (run random elapse fn override st) <> normalizeSuccess res /\
  getProp (fst (run random elapse fn override st)) "status" = VBool false.
Proof.
  intros _ Hn. rewrite (run_undefined _ _ _ _ _ Hn). cbn [fst snd].
  split; [reflexivity|]. split; [reflexivity|].
  split; [apply unexpectedError_not_success|].
  apply (canonical_followsContract false), canonical_mkResult.
Qed.

(** C3.  A failure that carries no HTTP status is retriable, and an
    exchange that fails with such failures on every invocation is
    invoked exactly [1 + retries] times by [run] under a policy of
    [retries] extra attempts, after which [run] returns the failure of
    the last invocation, normalized, in the world that invocation
    produced.  The invocations are counted twice: by the log of the
    wrapper, and by the exchange itself -- every counter [calls] of the
    world that each invocation advances by one, and that nothing else
    touches, has advanced by [1 + retries] when [run] returns. *)
Theorem run_retries_statusless_failures :
  (forall err, httpStatus err = None -> isRetriable err = true) /\
  (forall (fn : W -> Outcome * W) override (st : State W) retries,
      (forall w, exists e w', fn w = (Rejected e, w') /\ httpStatus e = None) ->
      retry_retries (mergeRetry override) = Some retries ->
      0 <= retries ->
      (exists e w st' new,
          fn w = (Rejected e, world st') /\
          run random elapse fn override st = (normalizeError e, st') /\
          httpStatus e = None /\
          getProp (normalizeError e) "status" = VBool false /\
          log st' = log st ++ new /\
          attempts new = Z.to_nat (1 + retries)) /\
      (forall calls : W -> nat,
          (forall w, calls (snd (random w)) = calls w) ->
          (forall ms w, calls (elapse ms w) = calls w) ->
          (forall w, calls (snd (fn w)) = S (calls w)) ->
          calls (world (snd (run random elapse fn override st)))
          = (calls (world st) + Z.to_nat (1 + retries))%nat)).
Proof.
  split; [apply isRetriable_no_status|].
  intros fn override st n Hfn Hn Hret.
  assert (Hfn' : forall w, exists e w', fn w = (Rejected e, w') /\ isRetriable e = true).
  { intros w. destruct (Hfn w) as (e & w' & H1 & H2).
    exists e, w'. split; [exact H1 | by apply isRetriable_no_status]. }
  rewrite (run_numeric _ _ _ _ _ _ Hn).
  replace (1 + n) with (1 + Z.max 0 n - 0) by lia. split.
  - destruct (runLoop_exhausts random elapse fn (mergeRetry override)
                (1 + Z.max 0 n) 0 st Hfn' ltac:(lia))
      as (e & w & st' & new & Hfrom & Hrun & Hlog & Hcount).
    exists e, w, st', new. split; [exact Hfrom|]. split; [exact Hrun|].
    split; [|split; [|split; [exact Hlog | exact Hcount]]].
    + destruct (Hfn w) as (e0 & w2 & H1 & H2). rewrite Hfrom in H1.
      by injection H1 as -> _.
    + apply (canonical_followsContract false), normalizeError_status.
  - intros calls Hrand Helapse Hcalls.
    apply (runLoop_counts random elapse calls); try assumption. lia.
Qed.

(** C4 (as amended).  When the first invocation of the exchange fails
    with an HTTP status in [[400,500)], [run] performs that one exchange
    and nothing else, whatever the number of retries, and returns the
    normalized failure; and [isRetriable] is false for every failure
    with a non-zero status outside [[500,600)]. *)
Theorem run_client_error_not_retried :
  (forall (fn : W -> Outcome * W) override (st : State W) err w s retries,
      fn (world st) = (Rejected err, w) ->
      httpStatus err = Some s -> 400 <= s < 500 ->
      retry_retries (mergeRetry override) = Some retries ->
      run random elapse fn override st =
        (normalizeError err, {| world := w; log := log st ++ [EvExchange] |}) /\
      attempts (log (snd (run random elapse fn override st))) = S (attempts (log st)) /\
      getProp (normalizeError err) "status" = VBool false) /\
  (forall err s, httpStatus err = Some s -> s <> 0 -> ~ (500 <= s < 600) ->
                 isRetriable err = false).
Proof.
  assert (Hcls : forall err s, httpStatus err = Some s -> s <> 0 ->
                               ~ (500 <= s < 600) -> isRetriable err = false).
  { intros err s Hs H0 Hout. rewrite (isRetriable_status _ _ Hs H0).
    destruct (500 <=? s) eqn:E1; [|done]. destruct (s <? 600) eqn:E2; [|done].
    apply Z.leb_le in E1. apply Z.ltb_lt in E2. lia. }
  split; [|exact Hcls].
  intros fn override st err w s n Hfn Hs Hrange Hn.
  assert (Hrun : run random elapse fn override st =
            (normalizeError err, {| world := w; log := log st ++ [EvExchange] |})).
  { rewrite (run_numeric _ _ _ _ _ _ Hn).
    apply runLoop_terminal; [lia | exact Hfn |].
    apply (Hcls err s Hs); lia. }
  split; [exact Hrun|]. split.
  - rewrite Hrun. simpl. rewrite attempts_app. cbn. lia.
  - apply (canonical_followsContract false), normalizeError_status.
Qed.

(** C5 (as amended).  An abort failure (no HTTP status, the transport's
    cancellation code) is classified as retriable, like every failure
    without a status: an exchange that fails with an abort on every
    invocation is invoked [1 + max(0, retries)] times, whatever the
    integer [retries], before [run] returns the failure of the last
    invocation; hence only once when [retries] is not positive.  The
    invocations are counted by the log of the wrapper and by the
    exchange itself, with every counter [calls] of the world that each
    invocation advances by one and that nothing else touches. *)
Theorem run_retries_aborts :
  (forall err, isAbort err -> isRetriable err = true) /\
  (forall (fn : W -> Outcome * W) override (st : State W) retries,
      (forall w, exists e w', fn w = (Rejected e, w') /\ isAbort e) ->
      retry_retries (mergeRetry override) = Some retries ->
      (exists e w st' new,
          fn w = (Rejected e, world st') /\
          run random elapse fn override st = (normalizeError e, st') /\
          isAbort e /\
          getProp (normalizeError e) "status" = VBool false /\
          log st' = log st ++ new /\
          attempts new = Z.to_nat (1 + Z.max 0 retries) /\
          (retries <= 0 -> attempts new = 1%nat)) /\
      (forall calls : W -> nat,
          (forall w, calls (snd (random w)) = calls w) ->
          (forall ms w, calls (elapse ms w) = calls w) ->
          (forall w, calls (snd (fn w)) = S (calls w)) ->
          calls (world (snd (run random elapse fn override st)))
          = (calls (world st) + Z.to_nat (1 + Z.max 0 retries))%nat)).
Proof.
  assert (Hcls : forall err, isAbort err -> isRetriable err = true).
  { intros err [Hr _]. apply isRetriable_no_status. unfold httpStatus. by rewrite Hr. }
  split; [exact Hcls|].
  intros fn override st n Hfn Hn.
  assert (Hfn' : forall w, exists e w', fn w = (Rejected e, w') /\ isRetriable e = true).
  { intros w. destruct (Hfn w) as (e & w' & H1 & H2). exists e, w'. auto. }
  rewrite (run_numeric _ _ _ _ _ _ Hn). split.
  - destruct (runLoop_exhausts random elapse fn (mergeRetry override)
                (1 + Z.max 0 n) 0 st Hfn' ltac:(lia))
      as (e & w & st' & new & Hfrom & Hrun & Hlog & Hcount).
    rewrite Z.sub_0_r in Hcount.
    exists e, w, st', new. split; [exact Hfrom|]. split; [exact Hrun|].
    split; [|split; [|split; [exact Hlog | split; [exact Hcount|]]]].
    + destruct (Hfn w) as (e0 & w2 & H1 & H2). rewrite Hfrom in H1.
      injection H1 as -> _. exact H2.
    + apply (canonical_followsContract false), normalizeError_status.
    + intros Hle. rewrite Hcount. lia.
  - intros calls Hrand Helapse Hcalls.
    rewrite (runLoop_counts random elapse calls) by (assumption || lia).
    by rewrite Z.sub_0_r.
Qed.
End RunnerProperties.

(** The end-to-end scenario of the specification: two 503 failures, then
    a success; three exchanges, two waits of 100 ms, and the payload
    wrapped as a success. *)
Example run_recovers_after_two_failures :
  run (fun n => (0%Q, n)) (fun _ n => n) recovering steadyPolicy
      {| world := 0%nat; log := [] |}
  = (mkResult true (VObj {["id" := VNum 1]}),
     {| world := 3%nat;
        log := [EvExchange; EvWait (Some 100%Q); EvExchange; EvWait (Some 100%Q);
                EvExchange] |}).
Proof. vm_compute. reflexivity. Qed.

Lemma run_undefined_retries_skips_exchange_witness :
  run zeroDraw noElapse (always (Resolved (responseOf 200 (VNum 1)))) undefinedRetries idle
  = (unexpectedError, idle) /\
  getOne online zeroDraw noElapse (VStr "/x") undefinedRetriesOptions idle
  = (Returns (Fulfilled unexpectedError), idle).
Proof.
  split.
  - exact (proj1 (run_undefined_retries_skips_exchange zeroDraw noElapse
                    (always (Resolved (responseOf 200 (VNum 1))))
                    undefinedRetries idle (responseOf 200 (VNum 1)) tt eq_refl eq_refl)).
  - vm_compute. reflexivity.
Defined.

Lemma run_retries_statusless_failures_witness :
  isRetriable networkError = true /\
  (exists e w st' new,
      failing w = (Rejected e, world st') /\
      run countDraw countElapse failing (withRetries 2) {| world := 0%nat; log := [] |}
        = (normalizeError e, st') /\
      log st' = new /\ attempts new = 3%nat) /\
  world (snd (run countDraw countElapse failing (withRetries 2)
                {| world := 0%nat; log := [] |})) = 3%nat.
Proof.
  destruct (run_retries_statusless_failures countDraw countElapse) as [Hcls Hrun].
  split; [apply Hcls; reflexivity|].
  destruct (Hrun failing (withRetries 2) {| world := 0%nat; log := [] |} 2)
    as [(e & w & st' & new & H1 & H2 & _ & _ & H5 & H6) Hcalls].
  - intros w. exists networkError, (S w). split; reflexivity.
  - reflexivity.
  - lia.
  - split.
    + exists e, w, st', new. split; [exact H1|]. split; [exact H2|].
      split; [exact H5 | exact H6].
    + apply (Hcalls (fun n => n)); reflexivity.
Defined.

Lemma run_client_error_not_retried_witness :
  run zeroDraw noElapse (always (Rejected (httpError 404 VUndefined))) (withRetries 3) idle
    = (normalizeError (httpError 404 VUndefined), {| world := tt; log := [EvExchange] |}) /\
  isRetriable (httpError 302 VUndefined) = false.
Proof.
  destruct (run_client_error_not_retried zeroDraw noElapse) as [Hrun Hcls].
  split.
  - apply (Hrun (always (Rejected (httpError 404 VUndefined))) (withRetries 3) idle
             (httpError 404 VUndefined) tt 404 3);
      [reflexivity | reflexivity | lia | reflexivity].
  - apply (Hcls (httpError 302 VUndefined) 302); [reflexivity | lia | lia].
Defined.

(** C4 (as stated) fails: a failure whose response carries the status 0,
    a status outside [[500,600)], is classified as retriable. *)
Lemma isRetriable_status_zero :
  httpStatus statusZeroError = Some 0 /\
  ~ (500 <= 0 < 600) /\
  isRetriable statusZeroError = true.
Proof. split; [reflexivity|]. split; [lia | reflexivity]. Qed.

Lemma run_retries_aborts_witness :
  isRetriable abortError = true /\
  (exists e w st' new,
      aborting w = (Rejected e, world st') /\
      run countDraw countElapse aborting None {| world := 0%nat; log := [] |}
        = (normalizeError e, st') /\
      log st' = new /\ attempts new = 2%nat) /\
  world (snd (run countDraw countElapse aborting None
                {| world := 0%nat; log := [] |})) = 2%nat.
Proof.
  assert (Ha : isAbort abortError) by (split; reflexivity).
  destruct (run_retries_aborts countDraw countElapse) as [Hcls Hrun].
  split; [apply Hcls, Ha|].
  destruct (Hrun aborting None {| world := 0%nat; log := [] |} 1)
    as [(e & w & st' & new & H1 & H2 & _ & _ & H5 & H6 & _) Hcalls].
  - intros w. exists abortError, (S w). split; [reflexivity | exact Ha].
  - reflexivity.
  - split.
    + exists e, w, st', new. split; [exact H1|]. split; [exact H2|].
      split; [exact H5 | exact H6].
    + apply (Hcalls (fun n => n)); reflexivity.
Defined.

(** C5 (as stated) fails: under the default policy an exchange that
    fails with an abort on every invocation is invoked twice, not once. *)
Lemma abort_is_retried :
  isAbort abortError /\
  isRetriable abortError = true /\
  run countDraw countElapse aborting None {| world := 0%nat; log := [] |}
    = (normalizeError abortError,
       {| world := 2%nat;
          log := [EvExchange; EvWait (Some 300%Q); EvExchange] |}) /\
  attempts (log (snd (run zeroDraw noElapse (always (Rejected abortError)) None idle)))
    = 2%nat /\
  attempts (log (snd (run zeroDraw noElapse (always (Rejected abortError)) None idle)))
    <> 1%nat.
Proof.
  split; [split; reflexivity|]. split; [reflexivity|].
  split; [vm_compute; reflexivity|].
  split; [vm_compute; reflexivity | vm_compute; discriminate].
Qed.

(** ** Method surface and resource sugar *)

Lemma validateUrl_blank url :
  blankPath url -> validateUrl url = Some "URL must be a non-empty string".
Proof.
  unfold validateUrl. destruct url as [| |b|n|s| | |]; simpl; intros H;
    try reflexivity.
  - by destruct b.
  - by destruct (n =? 0).
  - rewrite H. simpl. by rewrite orb_true_r.
Qed.

Lemma validateSubpath_blank subpath :
  blankPath subpath -> validateSubpath subpath = Some "Subpath must be a non-empty string".
Proof.
  unfold validateSubpath. destruct subpath as [| |b|n|s| | |]; simpl; intros H;
    try reflexivity.
  - by destruct b.
  - by destruct (n =? 0).
  - rewrite H. simpl. by rewrite orb_true_r.
Qed.

Lemma validateId_missing id :
  missingId id -> validateId id = Some "Resource ID must be provided and non-empty".
Proof. by intros [-> | [-> | ->]]. Qed.

Section ClientProperties.
Context {Net : Type}.
Variable transport : Request -> Net -> Outcome * Net.
Variable random : Net -> Q * Net.
Variable elapse : option Q -> Net -> Net.
Variable matchFilename : string -> option string.

(** C9 (as amended).  Called with a path that is not a string, is
    empty or is white space only, every operation of the method surface
    fails with the error "URL must be a non-empty string" outside the
    result channel and leaves the world and the log as they were, so no
    exchange is attempted: [getMany], [getOne], [post], [put], [patch],
    [remove] and [upload] throw it synchronously, and [download], an
    async function, returns a promise rejected with it.  The resource
    operations [get], [update], [patch] and [remove] called with a
    null, undefined or empty id, and [action] called with such a
    subpath, throw synchronously, again with no exchange. *)
Theorem invalid_input_fails_fast :
  (forall url payload data opts (st : State Net),
      blankPath url ->
      getMany transport random elapse url opts st
        = (Throws "URL must be a non-empty string", st) /\
      getOne transport random elapse url opts st
        = (Throws "URL must be a non-empty string", st) /\
      post transport random elapse url payload opts st
        = (Throws "URL must be a non-empty string", st) /\
      put transport random elapse url payload opts st
        = (Throws "URL must be a non-empty string", st) /\
      patch transport random elapse url payload opts st
        = (Throws "URL must be a non-empty string", st) /\
      remove transport random elapse url opts st
        = (Throws "URL must be a non-empty string", st) /\
      upload transport random elapse url data opts st
        = (Throws "URL must be a non-empty string", st) /\
      download transport random elapse matchFilename url opts st
        = (Returns (RejectedWith "URL must be a non-empty string"), st)) /\
  (forall baseUrl R id payload opts (st : State Net),
      resource transport random elapse baseUrl = inr R ->
      missingId id ->
      r_get R id opts st
        = (Throws "Resource ID must be provided and non-empty", st) /\
      r_update R id payload opts st
        = (Throws "Resource ID must be provided and non-empty", st) /\
      r_patch R id payload opts st
        = (Throws "Resource ID must be provided and non-empty", st) /\
      r_remove R id opts st
        = (Throws "Resource ID must be provided and non-empty", st)) /\
  (forall baseUrl R subpath payload opts (st : State Net),
      resource transport random elapse baseUrl = inr R ->
      blankPath subpath ->
      r_action R subpath payload opts st
        = (Throws "Subpath must be a non-empty string", st)).
Proof.
  split; [|split].
  - intros url payload data opts st Hb. apply validateUrl_blank in Hb.
    unfold getMany, getOne, post, put, patch, remove, validated, upload, download.
    rewrite Hb. repeat split.
  - intros baseUrl R id payload opts st HR Hid. apply validateId_missing in Hid.
    unfold resource in HR. destruct (validateUrl baseUrl); [discriminate|].
    injection HR as <-. simpl. unfold withId. rewrite Hid. repeat split.
  - intros baseUrl R subpath payload opts st HR Hs. apply validateSubpath_blank in Hs.
    unfold resource in HR. destruct (validateUrl baseUrl); [discriminate|].
    injection HR as <-. simpl. by rewrite Hs.
Qed.
End ClientProperties.

Lemma invalid_input_fails_fast_witness :
  getOne offline zeroDraw noElapse (VStr "") noOptions idle
    = (Throws "URL must be a non-empty string", idle) /\
  match resource offline zeroDraw noElapse (VStr "/users") with
  | inr R =>
      r_get R (VStr "") noOptions idle
        = (Throws "Resource ID must be provided and non-empty", idle) /\
      r_action R (VStr " ") VUndefined noOptions idle
        = (Throws "Subpath must be a non-empty string", idle)
  | inl _ => False
  end.
Proof.
  destruct (invalid_input_fails_fast offline zeroDraw noElapse noFilename)
    as (Hurl & Hid & Hsub).
  split.
  - apply (Hurl (VStr "") VUndefined (UValue VUndefined) noOptions idle). reflexivity.
  - destruct (resource offline zeroDraw noElapse (VStr "/users")) as [e|R] eqn:HR;
      [discriminate HR|].
    split.
    + apply (Hid (VStr "/users") R (VStr "") VUndefined noOptions idle HR).
      right. right. reflexivity.
    + apply (Hsub (VStr "/users") R (VStr " ") VUndefined noOptions idle HR).
      reflexivity.
Defined.

(** C9 (as stated) fails for [download]: called with an empty path it
    does not throw; it returns a rejected promise. *)
Lemma download_does_not_throw :
  blankPath (VStr "") /\
  fst (download offline zeroDraw noElapse noFilename (VStr "") noOptions idle)
    = Returns (RejectedWith "URL must be a non-empty string") /\
  fst (download offline zeroDraw noElapse noFilename (VStr "") noOptions idle)
    <> Throws "URL must be a non-empty string".
Proof. split; [reflexivity|]. split; [reflexivity | discriminate]. Qed.

(** * Further properties of the code *)

(** ** The classifier and the backoff policy *)

(** X1.  [isRetriable] holds exactly for the failures without an HTTP
    status, with the status 0, or with a status in [[500,600)]. *)
Theorem isRetriable_iff err : isRetriable err = true <-> transientStatus err.
Proof.
  unfold isRetriable, transientStatus, httpStatus.
  destruct (status <$> response err) as [s|]; [|done]. simpl.
  destruct (s =? 0) eqn:E0; simpl.
  - apply Z.eqb_eq in E0. split; auto.
  - apply Z.eqb_neq in E0. rewrite andb_true_iff, Z.leb_le, Z.ltb_lt.
    split; [auto | intros [?|?]; [contradiction | assumption]].
Qed.

Lemma computeBackoff_le_max (r : Q) attempt o :
  (computeBackoff r attempt o <= maxDelayMs o)%Q.
Proof. unfold computeBackoff. destruct (jitter o); simpl; apply Q.le_min_l. Qed.

Lemma computeBackoff_plain (r : Q) attempt o :
  jitter o = false -> computeBackoff r attempt o = expDelay attempt o.
Proof. unfold computeBackoff. by intros ->. Qed.



(** ** The shape of a run *)

Lemma attempts_schedule ws : attempts (schedule ws) = S (length ws).
Proof. induction ws as [|w ws IH]; [reflexivity|]. simpl. cbn. by rewrite <- IH. Qed.


Lemma backoff_numeric (r : Q) attempt retry o :
  policyOf retry = Some o -> backoff r attempt retry = Some (computeBackoff r attempt o).
Proof. unfold backoff. by intros ->. Qed.

Section RunnerTraces.
Context {W : Type}.
Variable random : W -> Q * W.
Variable elapse : option Q -> W -> W.

(** The trace of the loop: it is a schedule, shorter than the attempts
    left, whose waits are the computed backoffs. *)
Lemma runLoop_trace fn retry maxAttempts attempt (st : State W) :
  attempt < maxAttempts ->
  exists ws,
    log (snd (runLoop random elapse fn retry maxAttempts attempt st))
      = log st ++ schedule ws /\
    (length ws < Z.to_nat (maxAttempts - attempt))%nat /\
    (forall o, policyOf retry = Some o ->
       exists qs,
         ws = Some <$> qs /\
         Forall (fun q => (q <= maxDelayMs o)%Q) qs /\
         (jitter o = false -> qs = plainDelays o (attempt + 1) (length qs))).
Proof.
  remember (Z.to_nat (maxAttempts - attempt)) as n eqn:Hn.
  revert attempt st Hn. induction n as [|n IH]; intros attempt st Hn Hlt; [lia|].
  rewrite runLoop_step. destruct (decide (attempt < maxAttempts)); [|lia].
  destruct (fn (world st)) as [o w] eqn:Hfn. rewrite (invoke_eq _ _ _ _ Hfn).
  assert (Hstop : forall v : value,
    exists ws,
      log (snd (v, {| world := w; log := log st ++ [EvExchange] |}))
        = log st ++ schedule ws /\
      (length ws < S n)%nat /\
      (forall o, policyOf retry = Some o ->
         exists qs,
           ws = Some <$> qs /\
           Forall (fun q => (q <= maxDelayMs o)%Q) qs /\
           (jitter o = false -> qs = plainDelays o (attempt + 1) (length qs)))).
  { intros v. exists []. simpl. split; [reflexivity|]. split; [lia|].
    intros p _. exists []. repeat split. constructor. }
  destruct o as [res|err]; [apply Hstop|].
  destruct ((maxAttempts <=? attempt + 1) || negb (isRetriable err)) eqn:Hc;
    [apply Hstop|].
  apply orb_false_elim in Hc as [Hlast _]. apply Z.leb_gt in Hlast.
  destruct (backoffWait_inv random elapse (attempt + 1) retry
              {| world := w; log := log st ++ [EvExchange] |})
    as (r & w1 & Hbw & _).
  cbn [log world] in Hbw. rewrite Hbw.
  destruct (IH (attempt + 1)
              {| world := elapse (backoff r (attempt + 1) retry) w1;
                 log := (log st ++ [EvExchange])
                        ++ [EvWait (backoff r (attempt + 1) retry)] |}
              ltac:(lia) ltac:(lia))
    as (ws & Hlog & Hlen & Hnum).
  exists (backoff r (attempt + 1) retry :: ws). split; [|split].
  - rewrite Hlog. simpl. by rewrite <- !app_assoc.
  - simpl. lia.
  - intros p Hp. destruct (Hnum p Hp) as (qs & -> & Hcap & Hplain).
    exists (computeBackoff r (attempt + 1) p :: qs). split; [|split].
    + by rewrite (backoff_numeric _ _ _ _ Hp).
    + constructor; [apply computeBackoff_le_max | exact Hcap].
    + intros Hj. simpl. rewrite (computeBackoff_plain _ _ _ Hj). f_equal.
      by apply Hplain.
Qed.

(** Where the result of the loop comes from. *)
Lemma runLoop_provenance fn retry maxAttempts attempt (st : State W) :
  attempt < maxAttempts ->
  exists new,
    log (snd (runLoop random elapse fn retry maxAttempts attempt st)) = log st ++ new /\
    ((exists res w,
         fn w = (Resolved res,
                 world (snd (runLoop random elapse fn retry maxAttempts attempt st))) /\
         fst (runLoop random elapse fn retry maxAttempts attempt st)
           = normalizeSuccess res) \/
     (exists err w,
         fn w = (Rejected err,
                 world (snd (runLoop random elapse fn retry maxAttempts attempt st))) /\
         fst (runLoop random elapse fn retry maxAttempts attempt st)
           = normalizeError err /\
         (isRetriable err = false \/
          attempts new = Z.to_nat (maxAttempts - attempt)))).
Proof.
  remember (Z.to_nat (maxAttempts - attempt)) as n eqn:Hn.
  revert attempt st Hn. induction n as [|n IH]; intros attempt st Hn Hlt; [lia|].
  rewrite runLoop_step. destruct (decide (attempt < maxAttempts)); [|lia].
  destruct (fn (world st)) as [o w] eqn:Hfn. rewrite (invoke_eq _ _ _ _ Hfn).
  destruct o as [res|err].
  { exists [EvExchange]. split; [reflexivity|]. left. exists res, (world st). auto. }
  destruct ((maxAttempts <=? attempt + 1) || negb (isRetriable err)) eqn:Hc.
  { exists [EvExchange]. split; [reflexivity|]. right. exists err, (world st).
    split; [exact Hfn|]. split; [reflexivity|].
    apply orb_prop in Hc as [Hlast|Hr].
    - right. apply Z.leb_le in Hlast. cbn. lia.
    - left. by apply negb_true_iff in Hr. }
  apply orb_false_elim in Hc as [Hlast _]. apply Z.leb_gt in Hlast.
  set (st2 := backoffWait random elapse (attempt + 1) retry _).
  destruct (IH (attempt + 1) st2 ltac:(lia) ltac:(lia)) as (new & Hlog & Hfrom).
  destruct (backoffWait_log random elapse (attempt + 1) retry
              {| world := w; log := log st ++ [EvExchange] |}) as (ms & Hms).
  fold st2 in Hms. simpl in Hms.
  exists (EvExchange :: EvWait ms :: new). split.
  - rewrite Hlog, Hms. by rewrite <- !app_assoc.
  - destruct Hfrom as [Hok|(err' & w' & H1 & H2 & H3)]; [left; exact Hok|].
    right. exists err', w'. split; [exact H1|]. split; [exact H2|].
    destruct H3 as [H3|H3]; [left; exact H3|]. right.
    change (EvExchange :: EvWait ms :: new) with ([EvExchange; EvWait ms] ++ new).
    rewrite attempts_app, H3. cbn. lia.
Qed.

(** X3.  With an integer [retries], the log of a call of [run] is one
    exchange followed by (wait, exchange) pairs: at least one exchange
    is made even when [retries] is negative, a wait only happens between
    two exchanges, never after the last one, and there are at most
    [max(0, retries)] waits.  With an [undefined] [retries] the call
    makes no exchange and no wait at all, and returns the result written
    after the loop. *)
Theorem run_log_is_a_schedule (fn : W -> Outcome * W) override (st : State W) :
  match retry_retries (mergeRetry override) with
  | Some retries =>
      exists ws,
        log (snd (run random elapse fn override st)) = log st ++ schedule ws /\
        attempts (schedule ws) = S (length ws) /\
        (length ws <= Z.to_nat (Z.max 0 retries))%nat
  | None => run random elapse fn override st = (unexpectedError, st)
  end.
Proof.
  destruct (retry_retries (mergeRetry override)) as [n|] eqn:Hn.
  - rewrite (run_numeric _ _ _ _ _ _ Hn).
    destruct (runLoop_trace fn (mergeRetry override) (1 + Z.max 0 n) 0 st ltac:(lia))
      as (ws & Hlog & Hlen & _).
    exists ws. split; [exact Hlog|]. split; [apply attempts_schedule | lia].
  - by apply run_undefined.
Qed.





(** X6.  With an integer [retries], the result of [run] is the
    normalization of the outcome of the last exchange it made: the
    normalized response when that exchange resolved, and the normalized
    failure when it was rejected -- which only happens for a failure
    that is not retriable or once [1 + max(0, retries)] exchanges have
    been made; the result written after the loop is then never what
    [run] returns.  With an [undefined] [retries] that result is what
    [run] returns, without any exchange. *)
Theorem run_result_provenance (fn : W -> Outcome * W) override (st : State W) :
  match retry_retries (mergeRetry override) with
  | Some retries =>
      exists new,
        log (snd (run random elapse fn override st)) = log st ++ new /\
        ((exists res w,
             fn w = (Resolved res, world (snd (run random elapse fn override st))) /\
             fst (run random elapse fn override st) = normalizeSuccess res) \/
         (exists err w,
             fn w = (Rejected err, world (snd (run random elapse fn override st))) /\
             fst (run random elapse fn override st) = normalizeError err /\
             (isRetriable err = false \/
              attempts new = Z.to_nat (1 + Z.max 0 retries))))
  | None => run random elapse fn override st = (unexpectedError, st)
  end.
Proof.
  destruct (retry_retries (mergeRetry override)) as [n|] eqn:Hn.
  - rewrite (run_numeric _ _ _ _ _ _ Hn).
    destruct (runLoop_provenance fn (mergeRetry override) (1 + Z.max 0 n) 0 st
                ltac:(lia)) as (new & Hlog & Hfrom).
    exists new. split; [exact Hlog|]. by rewrite Z.sub_0_r in Hfrom.
  - by apply run_undefined.
Qed.
End RunnerTraces.

Section RunnerScenarios.
Context {W : Type}.
Variable random : W -> Q * W.
Variable elapse : option Q -> W -> W.

(** X7.  With [retries <= 0] (in particular with a negative value) [run]
    makes exactly one exchange and returns the normalization of its
    outcome, retriable or not, without waiting. *)
Theorem run_single_attempt (fn : W -> Outcome * W) override (st : State W) retries :
  retry_retries (mergeRetry override) = Some retries ->
  retries <= 0 ->
  run random elapse fn override st =
    (match fst (fn (world st)) with
     | Resolved res => normalizeSuccess res
     | Rejected err => normalizeError err
     end,
     {| world := snd (fn (world st)); log := log st ++ [EvExchange] |}).
Proof.
  intros Hn Hr. rewrite (run_numeric _ _ _ _ _ _ Hn).
  replace (Z.max 0 retries) with 0 by lia.
  rewrite runLoop_step. destruct (decide (0 < 1 + 0)); [|lia].
  destruct (fn (world st)) as [o w] eqn:Hfn. rewrite (invoke_eq _ _ _ _ Hfn).
  destruct o; reflexivity.
Qed.

Lemma runLoop_recovers (phase : W -> nat) (k : nat) fn retry maxAttempts :
  (forall w, phase (snd (random w)) = phase w) ->
  (forall ms w, phase (elapse ms w) = phase w) ->
  (forall w, (phase w < k)%nat ->
     exists e w', fn w = (Rejected e, w') /\ isRetriable e = true /\
                  phase w' = S (phase w)) ->
  (forall w, phase w = k -> exists res w', fn w = (Resolved res, w')) ->
  forall (j : nat) attempt (st : State W),
    (phase (world st) + j)%nat = k ->
    Z.of_nat j < maxAttempts - attempt ->
    exists res w w' ws,
      fn w = (Resolved res, w') /\ phase w = k /\
      runLoop random elapse fn retry maxAttempts attempt st =
        (normalizeSuccess res, {| world := w'; log := log st ++ schedule ws |}) /\
      length ws = j.
Proof.
  intros Hrand Helapse Hfail Hok.
  induction j as [|j IH]; intros attempt st Hp Hj.
  - destruct (Hok (world st) ltac:(lia)) as (res & w' & Hfn).
    exists res, (world st), w', []. split; [exact Hfn|]. split; [lia|].
    split; [|reflexivity]. apply runLoop_resolved; [lia | exact Hfn].
  - destruct (Hfail (world st) ltac:(lia)) as (e & w' & Hfn & Hr & Hph).
    rewrite runLoop_step. destruct (decide (attempt < maxAttempts)); [|lia].
    rewrite (invoke_eq _ _ _ _ Hfn), Hr. simpl negb. rewrite orb_false_r.
    destruct (maxAttempts <=? attempt + 1) eqn:Hlast; [apply Z.leb_le in Hlast; lia|].
    destruct (backoffWait_inv random elapse (attempt + 1) retry
                {| world := w'; log := log st ++ [EvExchange] |})
      as (r & w1 & Hbw & Hw1).
    cbn [log world] in Hbw, Hw1. rewrite Hbw.
    destruct (IH (attempt + 1)
                {| world := elapse (backoff r (attempt + 1) retry) w1;
                   log := (log st ++ [EvExchange])
                          ++ [EvWait (backoff r (attempt + 1) retry)] |})
      as (res & w & w2 & ws & Hres & Hk & Hrun & Hlen).
    + cbn [world]. rewrite Helapse.
      destruct Hw1 as [-> | ->]; [|rewrite Hrand]; lia.
    + lia.
    + exists res, w, w2, (backoff r (attempt + 1) retry :: ws).
      split; [exact Hres|]. split; [exact Hk|]. split; [|simpl; lia].
      rewrite Hrun. cbn [log schedule]. by rewrite <- !app_assoc.
Qed.

(** X8.  If the exchange fails with retriable failures [k] times and
    then resolves, and [k <= retries], then [run] returns the normalized
    response of that exchange after [k + 1] exchanges and [k] waits.
    (The progress of the service is tracked by a counter [phase] of the
    world that only exchanges advance.) *)
Theorem run_recovers (phase : W -> nat) (k : nat) (fn : W -> Outcome * W)
    override (st : State W) retries :
  (forall w, phase (snd (random w)) = phase w) ->
  (forall ms w, phase (elapse ms w) = phase w) ->
  (forall w, (phase w < k)%nat ->
     exists e w', fn w = (Rejected e, w') /\ isRetriable e = true /\
                  phase w' = S (phase w)) ->
  (forall w, phase w = k -> exists res w', fn w = (Resolved res, w')) ->
  phase (world st) = 0%nat ->
  retry_retries (mergeRetry override) = Some retries ->
  Z.of_nat k <= retries ->
  exists res w w' ws,
    fn w = (Resolved res, w') /\ phase w = k /\
    run random elapse fn override st =
      (normalizeSuccess res, {| world := w'; log := log st ++ schedule ws |}) /\
    length ws = k.
Proof.
  intros Hrand Helapse Hfail Hok H0 Hn Hk. rewrite (run_numeric _ _ _ _ _ _ Hn).
  apply (runLoop_recovers phase k fn _ _ Hrand Helapse Hfail Hok); lia.
Qed.

(** X9.  Under an integer [retries], an exchange that fails on every
    invocation with a failure the classifier retries (no status, status
    0, or a status in [[500,600)]) is invoked [1 + max(0, retries)]
    times with exactly [max(0, retries)] waits in between, and [run]
    then returns the normalized failure of one of those invocations. *)
Theorem run_exhausts_retries (fn : W -> Outcome * W) override (st : State W) retries :
  (forall w, exists e w', fn w = (Rejected e, w') /\ transientStatus e) ->
  retry_retries (mergeRetry override) = Some retries ->
  exists e ws,
    fst (run random elapse fn override st) = normalizeError e /\
    (exists w w', fn w = (Rejected e, w')) /\
    log (snd (run random elapse fn override st)) = log st ++ schedule ws /\
    length ws = Z.to_nat (Z.max 0 retries).
Proof.
  intros Hfn Hn.
  assert (Hfn' : forall w, exists e w', fn w = (Rejected e, w') /\ isRetriable e = true).
  { intros w. destruct (Hfn w) as (e & w' & H1 & H2). exists e, w'. split; [exact H1|].
    unfold isRetriable, transientStatus, httpStatus in *.
    destruct (status <$> response e) as [s|]; [|done]. simpl.
    destruct H2 as [-> | H2]; [done|].
    destruct (s =? 0); [done|]. simpl. apply andb_true_intro.
    split; [apply Z.leb_le | apply Z.ltb_lt]; lia. }
  rewrite (run_numeric _ _ _ _ _ _ Hn).
  destruct (runLoop_exhausts random elapse fn (mergeRetry override)
              (1 + Z.max 0 retries) 0 st Hfn' ltac:(lia))
    as (e & w & st' & new & Hfrom & Hrun & Hlog & Hcount).
  destruct (runLoop_trace random elapse fn (mergeRetry override)
              (1 + Z.max 0 retries) 0 st ltac:(lia)) as (ws & Hlog' & _).
  rewrite Hrun in *. cbn [fst snd] in *.
  exists e, ws. split; [reflexivity|]. split; [eauto|]. split; [exact Hlog'|].
  rewrite Hlog in Hlog'. apply app_inv_head in Hlog'. subst new.
  rewrite attempts_schedule in Hcount. lia.
Qed.

(** X24.  Under an integer [retries], when the first invocation of the
    exchange resolves, [run] performs that one exchange and nothing
    else, and returns the normalized response: the payload itself when
    it is canonical [{status:true,data}], and otherwise the success
    whose data is exactly the payload. *)
Theorem run_success_first_attempt (fn : W -> Outcome * W)
    (override : option RetryOverride) (st : State W) res w retries :
  fn (world st) = (Resolved res, w) ->
  retry_retries (mergeRetry override) = Some retries ->
  run random elapse fn override st =
    (normalizeSuccess res, {| world := w; log := log st ++ [EvExchange] |}) /\
  attempts (log (snd (run random elapse fn override st))) = S (attempts (log st)) /\
  (canonical true (data res) -> normalizeSuccess res = data res) /\
  (~ canonical true (data res) -> normalizeSuccess res = mkResult true (data res)).
Proof.
  intros Hfn Hn.
  assert (Hrun : run random elapse fn override st =
            (normalizeSuccess res, {| world := w; log := log st ++ [EvExchange] |})).
  { rewrite (run_numeric _ _ _ _ _ _ Hn). apply runLoop_resolved; [lia | exact Hfn]. }
  split; [exact Hrun|]. split; [|split].
  - rewrite Hrun. simpl. rewrite attempts_app. cbn. lia.
  - apply normalizeSuccess_canonical.
  - apply normalizeSuccess_wrap.
Qed.
End RunnerScenarios.



Lemma run_single_attempt_witness :
  run zeroDraw noElapse unavailable (withRetries (-2)) idle =
    (normalizeError (httpError 503 VUndefined), {| world := tt; log := [EvExchange] |}).
Proof.
  apply (run_single_attempt zeroDraw noElapse unavailable (withRetries (-2)) idle (-2));
    [reflexivity | lia].
Defined.

Lemma run_recovers_witness :
  exists res w w' ws,
    recovering w = (Resolved res, w') /\ w = 2%nat /\
    run countDraw countElapse recovering steadyPolicy {| world := 0%nat; log := [] |} =
      (normalizeSuccess res, {| world := w'; log := schedule ws |}) /\
    length ws = 2%nat.
Proof.
  apply (run_recovers countDraw countElapse (fun n => n) 2 recovering steadyPolicy
           {| world := 0%nat; log := [] |} 2).
  - reflexivity.
  - reflexivity.
  - intros w Hw. exists (httpError 503 VUndefined), (S w).
    unfold recovering. destruct (Nat.ltb_spec w 2); [|lia].
    split; [reflexivity|]. split; reflexivity.
  - intros w ->. eexists _, _. reflexivity.
  - reflexivity.
  - reflexivity.
  - lia.
Defined.

Lemma run_exhausts_retries_witness :
  exists e ws,
    fst (run zeroDraw noElapse unavailable (withRetries 3) idle) = normalizeError e /\
    log (snd (run zeroDraw noElapse unavailable (withRetries 3) idle)) = schedule ws /\
    length ws = 3%nat.
Proof.
  destruct (run_exhausts_retries zeroDraw noElapse unavailable (withRetries 3) idle 3)
    as (e & ws & H1 & _ & H3 & H4).
  - intros w. exists (httpError 503 VUndefined), w. split; [reflexivity|].
    right. simpl. lia.
  - reflexivity.
  - exists e, ws. split; [exact H1|]. split; [exact H3 | exact H4].
Defined.

Lemma run_success_first_attempt_witness :
  run zeroDraw noElapse (always (Resolved (responseOf 200 (VNum 1)))) (withRetries 5) idle
  = (mkResult true (VNum 1), {| world := tt; log := [EvExchange] |}).
Proof.
  exact (proj1 (run_success_first_attempt zeroDraw noElapse
                  (always (Resolved (responseOf 200 (VNum 1))))
                  (withRetries 5) idle (responseOf 200 (VNum 1)) tt 5 eq_refl eq_refl)).
Defined.

(** ** The normalizers *)

(** X10.  Normalizing is idempotent in the proper sense: a response whose
    payload is an already normalized success normalizes to that same
    success, and an error whose body is an already normalized failure
    normalizes to that same failure, whatever its status, code and
    message. *)
Theorem normalizing_twice_is_once :
  (forall res s h,
      normalizeSuccess {| data := normalizeSuccess res; status := s; headers := h |}
      = normalizeSuccess res) /\
  (forall err m c s h,
      normalizeError
        {| message := m; code := c;
           response := Some {| data := normalizeError err; status := s; headers := h |} |}
      = normalizeError err).
Proof.
  split.
  - intros res s h.
    apply (normalizeSuccess_canonical
             {| data := normalizeSuccess res; status := s; headers := h |}).
    apply normalizeSuccess_status.
  - intros err m c s h.
    apply (normalizeError_canonical
             {| message := m; code := c;
                response := Some {| data := normalizeError err; status := s;
                                    headers := h |} |}).
    apply normalizeError_status.
Qed.

Lemma normalizeError_message err :
  ~ canonical false (errorBody err) ->
  getProp (getProp (normalizeError err) "data") "message" = chosenMessage err.
Proof.
  intros Hn. unfold normalizeError. fold (errorBody err).
  destruct (followsContract (errorBody err)) eqn:Hf.
  - destruct (getProp (errorBody err) "status") as [| |[]| | | | |] eqn:Hs;
      try (exfalso; apply Hn; by apply followsContract_canonical).
    all: rewrite getProp_mkResult_data; unfold chosenMessage, js_or; simpl;
      destruct (truthy (errorBody err) && String.eqb (typeof (errorBody err)) "object");
      destruct (response err) as [r|]; simpl;
      try destruct (status r =? 0); simpl;
      destruct (code err) as [c0|]; simpl;
      try destruct (String.eqb c0 ""); simpl;
      simplify_map_eq;
      destruct (truthy (getProp (errorBody err) "message")); try done;
      destruct (truthy (getProp (errorBody err) "error")); done.
  - rewrite getProp_mkResult_data; unfold chosenMessage, js_or; simpl;
      destruct (truthy (errorBody err) && String.eqb (typeof (errorBody err)) "object");
      destruct (response err) as [r|]; simpl;
      try destruct (status r =? 0); simpl;
      destruct (code err) as [c0|]; simpl;
      try destruct (String.eqb c0 ""); simpl;
      simplify_map_eq;
      destruct (truthy (getProp (errorBody err) "message")); try done;
      destruct (truthy (getProp (errorBody err) "error")); done.
Qed.

(** X11.  A failure that [normalizeError] synthesizes (the body is not
    a canonical failure) always has a truthy [message]: it is never
    missing, [null] or the empty string. *)
Theorem synthesized_message_is_truthy err :
  ~ canonical false (errorBody err) ->
  truthy (getProp (getProp (normalizeError err) "data") "message") = true.
Proof.
  intros Hn. rewrite (normalizeError_message _ Hn). unfold chosenMessage.
  destruct (truthy (getProp (errorBody err) "message")) eqn:H1; [exact H1|].
  destruct (truthy (getProp (errorBody err) "error")) eqn:H2; [exact H2|].
  destruct (String.eqb (message err) "") eqn:H3; simpl; [reflexivity|].
  by rewrite H3.
Qed.

Lemma synthesized_message_is_truthy_witness :
  truthy (getProp (getProp (normalizeError falsyFieldsError) "data") "message") = true.
Proof.
  apply synthesized_message_is_truthy.
  intros (o & Heq & Hs & _). injection Heq as <-. vm_compute in Hs. discriminate.
Defined.

(** ** Validation *)

Lemma blank_rev_app s1 s2 : blank (String.rev_app s1 s2) = blank s1 && blank s2.
Proof.
  revert s2. induction s1 as [|c s1 IH]; intros s2; simpl; [done|].
  rewrite IH. simpl. destruct (is_space c), (blank s1), (blank s2); reflexivity.
Qed.

Lemma rev_app_empty s1 s2 : String.rev_app s1 s2 = "" -> s1 = "" /\ s2 = "".
Proof.
  revert s2. induction s1 as [|c s1 IH]; intros s2; simpl; [done|].
  intros H. apply IH in H as [_ H]. discriminate.
Qed.

Lemma blank_trimStart s : blank (trimStart s) = blank s.
Proof.
  induction s as [|c s IH]; simpl; [done|].
  destruct (is_space c) eqn:Hc; simpl; [exact IH | by rewrite Hc].
Qed.

Lemma trimStart_empty s : trimStart s = "" <-> blank s = true.
Proof.
  induction s as [|c s IH]; simpl; [done|].
  destruct (is_space c); simpl; [exact IH | split; discriminate].
Qed.

Lemma trim_empty s : trim s = "" <-> blank s = true.
Proof.
  unfold trim, String.rev. split.
  - intros H. apply rev_app_empty in H as [H _].
    apply trimStart_empty in H. rewrite blank_rev_app in H.
    apply andb_prop in H as [H _]. by rewrite blank_trimStart in H.
  - intros H. apply trimStart_empty in H. rewrite H. reflexivity.
Qed.

(** X12.  [validateUrl] accepts exactly the strings that contain a
    character other than white space; every other value -- a value that
    is not a string, the empty string, a string of blanks -- is
    rejected. *)
Theorem validateUrl_accepts_iff url :
  validateUrl url = None <-> exists s, url = VStr s /\ blank s = false.
Proof.
  split.
  - unfold validateUrl. destruct url as [| |b|n|s| | |]; simpl; try discriminate.
    + by destruct b.
    + by destruct (n =? 0).
    + destruct (String.eqb (trim s) "") eqn:Ht.
      * rewrite orb_true_r. discriminate.
      * intros _. exists s. split; [done|].
        apply String.eqb_neq in Ht. destruct (blank s) eqn:Hb; [|done].
        exfalso. apply Ht. by apply trim_empty.
  - intros (s & -> & Hb). unfold validateUrl. simpl.
    assert (Ht : String.eqb (trim s) "" = false).
    { apply String.eqb_neq. intros H. apply trim_empty in H. congruence. }
    rewrite Ht. destruct s; [discriminate Hb | reflexivity].
Qed.

Lemma validateUrl_accepts_iff_witness : validateUrl (VStr "/users") = None.
Proof.
  apply (proj2 (validateUrl_accepts_iff (VStr "/users"))).
  exists "/users". split; reflexivity.
Defined.

Lemma isRetriable_iff_witness : isRetriable (httpError 503 VUndefined) = true.
Proof.
  apply (proj2 (isRetriable_iff (httpError 503 VUndefined))).
  right. simpl. lia.
Defined.

(** ** The method surface *)

Section ClientFacts.
Context {Net : Type}.
Variable transport : Request -> Net -> Outcome * Net.
Variable random : Net -> Q * Net.
Variable elapse : option Q -> Net -> Net.
Variable matchFilename : string -> option string.

Lemma run_isResult {W : Type} (R : W -> Q * W) (E : option Q -> W -> W) fn o
    (st : State W) :
  isResult (fst (run R E fn o st)).
Proof.
  unfold run. destruct (maxAttemptsOf (mergeRetry o)).
  - apply (runLoop_result R E).
  - exists false. apply canonical_mkResult.
Qed.

Lemma validated_ok url fn o (st : State Net) :
  validateUrl url = None ->
  validated random elapse url fn o st =
    (Returns (Fulfilled (fst (run random elapse fn (opt_retry o) st))),
     snd (run random elapse fn (opt_retry o) st)).
Proof.
  intros H. unfold validated. rewrite H.
  by destruct (run random elapse fn (opt_retry o) st).
Qed.

Lemma validated_settles url fn o (st : State Net) :
  validateUrl url = None -> settlesToResult (validated random elapse url fn o st).
Proof.
  intros H. rewrite (validated_ok _ _ _ _ H). eexists. split; [reflexivity|].
  apply run_isResult.
Qed.

(** The loop of [download] makes the same exchanges and waits as the
    plain loop, and its captured variable holds the response that
    produced a success. *)
Lemma backoffWait_capture attempt retry (st : State Net) c :
  backoffWait (liftRandom random) (liftElapse elapse) attempt retry (withCapture st c)
  = withCapture (backoffWait random elapse attempt retry st) c.
Proof.
  unfold backoffWait, delay, withCapture, liftRandom, liftElapse. simpl.
  destruct (default false (retry_jitter retry)); [|reflexivity].
  by destruct (random (world st)).
Qed.

Lemma runLoop_capture fn retry maxAttempts :
  forall (n : nat) attempt (st : State Net) c,
    n = Z.to_nat (maxAttempts - attempt) ->
    exists c',
      runLoop (liftRandom random) (liftElapse elapse) (capturing fn)
        retry maxAttempts attempt (withCapture st c)
      = (fst (runLoop random elapse fn retry maxAttempts attempt st),
         withCapture (snd (runLoop random elapse fn retry maxAttempts attempt st)) c') /\
      ((c' = c /\
        canonical false (fst (runLoop random elapse fn retry maxAttempts attempt st))) \/
       (exists res w w',
           fn w = (Resolved res, w') /\ c' = Some res /\
           fst (runLoop random elapse fn retry maxAttempts attempt st)
             = normalizeSuccess res)).
Proof.
  induction n as [|n IH]; intros attempt st c Hn;
    rewrite (runLoop_step random elapse),
      (runLoop_step (liftRandom random) (liftElapse elapse));
    destruct (decide (attempt < maxAttempts)) as [Hlt|Hge]; try lia.
  - exists c. split; [reflexivity|]. left. split; [done|]. apply canonical_mkResult.
  - destruct (fn (world st)) as [o w] eqn:Hfn.
    rewrite (invoke_eq _ _ _ _ Hfn).
    assert (Hinv : invoke (capturing fn) (withCapture st c) =
              (o, withCapture {| world := w; log := log st ++ [EvExchange] |}
                    match o with Resolved r => Some r | Rejected _ => c end)).
    { unfold invoke, capturing, withCapture. simpl. rewrite Hfn. by destruct o. }
    rewrite Hinv. destruct o as [res|err].
    + exists (Some res). split; [reflexivity|]. right. exists res, (world st), w. auto.
    + destruct ((maxAttempts <=? attempt + 1) || negb (isRetriable err)).
      * exists c. split; [reflexivity|]. left. split; [done|]. apply normalizeError_status.
      * rewrite backoffWait_capture. apply IH. lia.
Qed.

(** X13.  Called with a path that [validateUrl] accepts, [getMany],
    [getOne], [post], [put], [patch], [remove] and [download] neither
    throw nor reject: each returns a promise fulfilled with a result
    [{status, data}], whatever the transport does. *)
Theorem valid_path_settles url payload opts (st : State Net) :
  validateUrl url = None ->
  settlesToResult (getMany transport random elapse url opts st) /\
  settlesToResult (getOne transport random elapse url opts st) /\
  settlesToResult (post transport random elapse url payload opts st) /\
  settlesToResult (put transport random elapse url payload opts st) /\
  settlesToResult (patch transport random elapse url payload opts st) /\
  settlesToResult (remove transport random elapse url opts st) /\
  settlesToResult (download transport random elapse matchFilename url opts st).
Proof.
  intros H. repeat split; try by apply validated_settles.
  unfold download. rewrite H.
  match goal with |- context [run ?R ?E ?f ?o ?s] =>
    pose proof (run_isResult R E f o s) as Hres;
    destruct (run R E f o s) as [result st1] end.
  simpl in Hres.
  destruct (negb (truthy (getProp result "status"))); eexists; (split; [reflexivity|]).
  - exact Hres.
  - exists true. apply canonical_mkResult.
Qed.

(** X14.  [download] on an accepted path makes exactly the exchanges and
    waits of [run] on a GET with [responseType: "blob"].  When that run
    ends in a failure, [download] returns that failure unchanged; when it
    ends in a success, the success came from a response the transport
    resolved, and [download] returns [{status: true, data: {blob,
    filename}}] with the data of the run's result as [blob] and the file
    name extracted from the headers of that same response. *)
Theorem download_wraps_run url opts (st : State Net) :
  validateUrl url = None ->
  snd (download transport random elapse matchFilename url opts st)
    = snd (run random elapse (exchange transport GET url NoBody (blobConfig opts))
             (opt_retry opts) st) /\
  ((canonical false
      (fst (run random elapse (exchange transport GET url NoBody (blobConfig opts))
              (opt_retry opts) st)) /\
    fst (download transport random elapse matchFilename url opts st)
      = Returns (Fulfilled
          (fst (run random elapse (exchange transport GET url NoBody (blobConfig opts))
                  (opt_retry opts) st)))) \/
   (exists res w w',
       exchange transport GET url NoBody (blobConfig opts) w = (Resolved res, w') /\
       fst (run random elapse (exchange transport GET url NoBody (blobConfig opts))
              (opt_retry opts) st) = normalizeSuccess res /\
       fst (download transport random elapse matchFilename url opts st)
         = Returns (Fulfilled
             (mkResult true
                (VObj (<["filename" := extractFilename matchFilename (Some res)]>
                         {["blob" := getProp (normalizeSuccess res) "data"]})))))).
Proof.
  intros H. unfold download. rewrite H. fold (blobConfig opts).
  set (fn := exchange transport GET url NoBody (blobConfig opts)).
  change {| world := (world st, None); log := log st |}
    with (withCapture st (@None AxiosResponse)).
  change (fun w : Net * option AxiosResponse =>
            let '(r, n) := random (fst w) in (r, (n, snd w)))
    with (liftRandom random).
  change (fun (ms : option Q) (w : Net * option AxiosResponse) => (elapse ms (fst w), snd w))
    with (liftElapse elapse).
  unfold run.
  destruct (maxAttemptsOf (mergeRetry (opt_retry opts))) as [maxAttempts|].
  2: { assert (Hfail : canonical false unexpectedError) by apply canonical_mkResult.
       destruct (canonical_followsContract _ _ Hfail) as [_ Hs].
       cbn [fst snd]. rewrite Hs. simpl. split; [by destruct st|]. left. auto. }
  destruct (runLoop_capture fn (mergeRetry (opt_retry opts)) maxAttempts
              _ 0 st None eq_refl) as (c' & Hsim & Hcase).
  rewrite Hsim.
  destruct (runLoop random elapse fn (mergeRetry (opt_retry opts)) maxAttempts 0 st)
    as [v st1].
  cbn [fst snd] in *.
  destruct Hcase as [[-> Hfail] | (res & w & w' & Hfn & -> & ->)].
  - destruct (canonical_followsContract _ _ Hfail) as [_ Hs]. rewrite Hs. simpl.
    split; [by destruct st1|]. left. auto.
  - destruct (canonical_followsContract _ _ (normalizeSuccess_status res)) as [_ Hs].
    rewrite Hs. simpl. split; [by destruct st1|]. right. exists res, w, w'. auto.
Qed.
End ClientFacts.

(** ** Upload *)

Lemma NoDup_omap_fst {A B C : Type} (f : A * B -> option (A * C)) (l : list (A * B)) :
  (forall x y, f x = Some y -> fst y = fst x) ->
  NoDup (fst <$> l) -> NoDup (fst <$> omap f l).
Proof.
  intros Hf. induction l as [|x l IH]; simpl; [constructor|].
  intros Hnd. apply NoDup_cons in Hnd as [Hx Hl].
  destruct (f x) as [y|] eqn:Hy; [|by apply IH].
  simpl. apply NoDup_cons. split; [|by apply IH].
  rewrite (Hf _ _ Hy). intros Hin. apply Hx.
  apply list_elem_of_fmap in Hin as (z & Hz1 & Hz2).
  apply list_elem_of_omap in Hz2 as (z0 & Hz0 & Hfz).
  apply list_elem_of_fmap. exists z0. split; [|exact Hz0].
  rewrite Hz1. by apply Hf.
Qed.

(** X15.  From an object or an array, [upload] builds a form with
    exactly one text field for each own property whose value is neither
    [null] nor [undefined], holding [String(value)]; properties with a
    [null] or [undefined] value give no field. *)
Theorem uploadForm_of_mapping fieldName v :
  isMapping v ->
  exists form,
    uploadForm fieldName (UValue v) = Some form /\
    (forall k e, (k, e) ∈ form <->
       exists x, spread v !! k = Some x /\ x <> VNull /\ x <> VUndefined /\
                 e = FText (ToString x)) /\
    NoDup (fst <$> form).
Proof.
  intros Hv.
  assert (Hform : uploadForm fieldName (UValue v) =
            Some (omap (fun kv : string * value =>
                          match snd kv with
                          | VNull | VUndefined => None
                          | x => Some (fst kv, FText (ToString x))
                          end) (entries v))).
  { destruct v; try contradiction; reflexivity. }
  eexists. split; [exact Hform|]. split.
  - intros k e. rewrite list_elem_of_omap. unfold entries. split.
    + intros ([k' x] & Hin & Hf). apply elem_of_map_to_list in Hin. simpl in Hf.
      exists x. destruct x; try discriminate; injection Hf as <- <-; done.
    + intros (x & Hx & Hn & Hu & ->). exists (k, x). split.
      * by apply elem_of_map_to_list.
      * simpl. destruct x; try done.
  - apply NoDup_omap_fst.
    + intros [k x] [k' e] H. simpl in H. destruct x; try discriminate;
        by injection H as <- _.
    + apply NoDup_fst_map_to_list.
Qed.

Lemma uploadForm_of_mapping_witness :
  exists form,
    uploadForm "file"
      (UValue (VObj (<["a" := VNum 1]> (<["b" := VNull]> {["c" := VStr "x"]}))))
      = Some form /\
    ("a", FText "1") ∈ form /\ ("c", FText "x") ∈ form /\
    (forall e, ("b", e) ∉ form).
Proof.
  destruct (uploadForm_of_mapping "file"
              (VObj (<["a" := VNum 1]> (<["b" := VNull]> {["c" := VStr "x"]}))) I)
    as (form & Hform & Hin & _).
  exists form. split; [exact Hform|]. repeat split.
  - apply Hin. exists (VNum 1). repeat split; done.
  - apply Hin. exists (VStr "x"). repeat split; done.
  - intros e He. apply Hin in He as (x & Hx & Hn & _).
    vm_compute in Hx. injection Hx as <-. by apply Hn.
Defined.

Section UploadFacts.
Context {Net : Type}.
Variable transport : Request -> Net -> Outcome * Net.
Variable random : Net -> Q * Net.
Variable elapse : option Q -> Net -> Net.

(** X16.  On an accepted path, [upload] given a primitive, [null] or
    [undefined] as data throws "Invalid upload data type. Expected
    FormData, Blob, File, or object." synchronously, before any
    exchange. *)
Theorem upload_rejects_primitives url v opts (st : State Net) :
  validateUrl url = None -> isPrimitive v ->
  upload transport random elapse url (UValue v) opts st =
    (Throws "Invalid upload data type. Expected FormData, Blob, File, or object.", st).
Proof.
  intros Hu Hv. unfold upload. rewrite Hu.
  destruct v as [| |b|n|s| | |]; try contradiction; simpl; try reflexivity.
  - by destruct b.
  - by destruct (n =? 0).
  - by destruct (String.eqb s "").
Qed.

(** X17.  On an accepted path and with data it accepts, [upload] is
    [run] on a POST of the form it built, it neither throws nor rejects,
    and the request's [Content-Type] header is [multipart/form-data]
    whatever the caller passed, while every other header of the caller
    is forwarded unchanged. *)
Theorem upload_posts_multipart url data form opts (st : State Net) :
  validateUrl url = None ->
  uploadForm (default "file" (opt_fieldName opts)) data = Some form ->
  upload transport random elapse url data opts st =
    (Returns (Fulfilled
       (fst (run random elapse
               (exchange transport POST url (FormBody form) (multipartConfig opts))
               (opt_retry opts) st))),
     snd (run random elapse
            (exchange transport POST url (FormBody form) (multipartConfig opts))
            (opt_retry opts) st)) /\
  settlesToResult (upload transport random elapse url data opts st) /\
  getProp (cfg_headers (multipartConfig opts)) "Content-Type"
    = VStr "multipart/form-data" /\
  (forall h k, opt_headers opts = VObj h -> k <> "Content-Type" ->
               getProp (cfg_headers (multipartConfig opts)) k = getProp (VObj h) k).
Proof.
  intros Hu Hf.
  assert (Heq : upload transport random elapse url data opts st =
    (Returns (Fulfilled
       (fst (run random elapse
               (exchange transport POST url (FormBody form) (multipartConfig opts))
               (opt_retry opts) st))),
     snd (run random elapse
            (exchange transport POST url (FormBody form) (multipartConfig opts))
            (opt_retry opts) st))).
  { unfold upload. rewrite Hu, Hf. fold (multipartConfig opts).
    by destruct (run random elapse _ (opt_retry opts) st). }
  split; [exact Heq|]. split; [|split].
  - rewrite Heq. eexists. split; [reflexivity|]. apply run_isResult.
  - unfold multipartConfig. simpl. by simplify_map_eq.
  - intros h k Hh Hk. unfold multipartConfig. simpl. rewrite Hh. simpl.
    by rewrite lookup_insert_ne.
Qed.
End UploadFacts.

Lemma upload_rejects_primitives_witness :
  upload offline zeroDraw noElapse (VStr "/files") (UValue (VStr "text")) noOptions idle =
    (Throws "Invalid upload data type. Expected FormData, Blob, File, or object.", idle).
Proof.
  apply (upload_rejects_primitives offline zeroDraw noElapse); [reflexivity | exact I].
Defined.

Lemma upload_posts_multipart_witness :
  settlesToResult
    (upload offline zeroDraw noElapse (VStr "/files") (UValue (VBlob 1)) noOptions idle).
Proof.
  apply (upload_posts_multipart offline zeroDraw noElapse (VStr "/files")
           (UValue (VBlob 1)) [("file", FBlob 1)] noOptions idle); reflexivity.
Defined.

(** ** Resource sugar *)

Lemma blank_app s1 s2 : blank (s1 +:+ s2) = blank s1 && blank s2.
Proof.
  induction s1 as [|c s1 IH]; simpl; [done|]. rewrite IH.
  by destruct (is_space c).
Qed.

Lemma validateUrl_nonblank s : blank s = false -> validateUrl (VStr s) = None.
Proof.
  intros Hb. unfold validateUrl. simpl.
  assert (Ht : String.eqb (trim s) "" = false).
  { apply String.eqb_neq. intros H. apply trim_empty in H. congruence. }
  rewrite Ht. destruct s; [discriminate Hb | reflexivity].
Qed.

Lemma validateSubpath_nonblank s : blank s = false -> validateSubpath (VStr s) = None.
Proof.
  intros Hb. unfold validateSubpath. simpl.
  assert (Ht : String.eqb (trim s) "" = false).
  { apply String.eqb_neq. intros H. apply trim_empty in H. congruence. }
  rewrite Ht. destruct s; [discriminate Hb | reflexivity].
Qed.

Lemma validateUrl_under baseUrl x : validateUrl (under baseUrl x) = None.
Proof.
  unfold under. apply validateUrl_nonblank.
  rewrite !blank_app. simpl. apply andb_false_r.
Qed.

Lemma validateId_present id : ~ missingId id -> validateId id = None.
Proof.
  unfold missingId. intros H.
  destruct id as [| | | |s| | |]; try reflexivity; try (exfalso; apply H; auto; fail).
  destruct s; [exfalso; apply H; auto | reflexivity].
Qed.

Section ResourceFacts.
Context {Net : Type}.
Variable transport : Request -> Net -> Outcome * Net.
Variable random : Net -> Q * Net.
Variable elapse : option Q -> Net -> Net.

Lemma validated_resolves url fn o (st : State Net) :
  validateUrl url = None ->
  validated random elapse url fn o st = resolvesWith random elapse fn (opt_retry o) st.
Proof.
  intros H. unfold validated, resolvesWith. rewrite H.
  by destruct (run random elapse fn (opt_retry o) st).
Qed.

(** X18.  On a resource, [get], [update], [patch] and [remove] called
    with any id other than [null], [undefined] and the empty string --
    so also with 0, [false] or a blank string -- never throw: each is
    [run] on a GET, PUT, PATCH or DELETE of the path
    [baseUrl + "/" + String(id)]. *)
Theorem resource_item_operations baseUrl R id payload opts (st : State Net) :
  resource transport random elapse baseUrl = inr R ->
  ~ missingId id ->
  r_get R id opts st =
    resolvesWith random elapse
      (exchange transport GET (under baseUrl id) NoBody (queryConfig opts))
      (opt_retry opts) st /\
  r_update R id payload opts st =
    resolvesWith random elapse
      (exchange transport PUT (under baseUrl id) (JsonBody payload) (payloadConfig opts))
      (opt_retry opts) st /\
  r_patch R id payload opts st =
    resolvesWith random elapse
      (exchange transport PATCH (under baseUrl id) (JsonBody payload) (payloadConfig opts))
      (opt_retry opts) st /\
  r_remove R id opts st =
    resolvesWith random elapse
      (exchange transport DELETE (under baseUrl id) NoBody (queryConfig opts))
      (opt_retry opts) st /\
  ToString (under baseUrl id) = ToString baseUrl +:+ "/" +:+ ToString id.
Proof.
  intros HR Hid. apply validateId_present in Hid.
  unfold resource in HR. destruct (validateUrl baseUrl); [discriminate|].
  injection HR as <-. simpl. unfold withId. rewrite Hid.
  unfold getOne, put, patch, remove.
  rewrite !(validated_resolves _ _ _ _ (validateUrl_under baseUrl id)).
  repeat split.
Qed.

(** X19.  On a resource, [action] called with a subpath that contains a
    character other than white space never throws: without a payload
    ([undefined]) it is [run] on a GET of [baseUrl + "/" + subpath], and
    with any other payload, [null] included, on a POST of that payload
    to the same path. *)
Theorem resource_action_dispatch baseUrl R s payload opts (st : State Net) :
  resource transport random elapse baseUrl = inr R ->
  blank s = false ->
  r_action R (VStr s) payload opts st =
    match payload with
    | VUndefined =>
        resolvesWith random elapse
          (exchange transport GET (under baseUrl (VStr s)) NoBody (queryConfig opts))
          (opt_retry opts) st
    | _ =>
        resolvesWith random elapse
          (exchange transport POST (under baseUrl (VStr s)) (JsonBody payload)
             (payloadConfig opts))
          (opt_retry opts) st
    end.
Proof.
  intros HR Hs. apply validateSubpath_nonblank in Hs.
  unfold resource in HR. destruct (validateUrl baseUrl); [discriminate|].
  injection HR as <-. cbn [r_action]. rewrite Hs.
  unfold getOne, post.
  destruct payload;
    by rewrite (validated_resolves _ _ _ _ (validateUrl_under baseUrl (VStr s))).
Qed.

(** X20.  On a resource, [list] and [create] never throw.  [create] is
    [run] on a POST of the payload to the base path; [list] is [run] on a
    GET of the base path whose query parameters are the caller's
    [opts.params] overridden, key by key, by the [query] argument. *)
Theorem resource_collection_operations baseUrl R query payload opts (st : State Net) :
  resource transport random elapse baseUrl = inr R ->
  r_list R query opts st =
    resolvesWith random elapse
      (exchange transport GET baseUrl NoBody (listConfig query opts))
      (opt_retry opts) st /\
  r_create R payload opts st =
    resolvesWith random elapse
      (exchange transport POST baseUrl (JsonBody payload) (payloadConfig opts))
      (opt_retry opts) st /\
  (forall k,
      getProp (cfg_params (listConfig query opts)) k =
      match spread query !! k with
      | Some v => v
      | None => default VUndefined (spread (opt_params opts) !! k)
      end).
Proof.
  intros HR. unfold resource in HR.
  destruct (validateUrl baseUrl) eqn:Hb; [discriminate|].
  injection HR as <-. cbn [r_list r_create]. unfold getMany, post.
  rewrite !(validated_resolves _ _ _ _ Hb). split; [|split; [reflexivity|]].
  - cbn [opt_retry]. f_equal. unfold queryConfig, listConfig. cbn.
    by destruct query.
  - intros k. unfold listConfig. cbn [cfg_params getProp].
    destruct (spread query !! k) as [v|] eqn:Hq.
    + by rewrite (lookup_union_Some_l _ _ _ _ Hq).
    + by rewrite (lookup_union_r _ _ _ Hq).
Qed.
End ResourceFacts.

Lemma resource_item_operations_witness :
  match resource offline zeroDraw noElapse (VStr "/users") with
  | inr R =>
      r_get R (VNum 0) noOptions idle =
        resolvesWith zeroDraw noElapse
          (exchange offline GET (under (VStr "/users") (VNum 0)) NoBody
             (queryConfig noOptions))
          None idle /\
      ToString (under (VStr "/users") (VNum 0)) = "/users/0"
  | inl _ => False
  end.
Proof.
  destruct (resource offline zeroDraw noElapse (VStr "/users")) as [e|R] eqn:HR;
    [discriminate HR|].
  destruct (resource_item_operations offline zeroDraw noElapse (VStr "/users") R
              (VNum 0) VUndefined noOptions idle HR) as (Hget & _ & _ & _ & Hurl).
  - intros [H|[H|H]]; discriminate H.
  - split; [exact Hget | exact Hurl].
Defined.

Lemma resource_action_dispatch_witness :
  match resource offline zeroDraw noElapse (VStr "/users") with
  | inr R =>
      r_action R (VStr "sync") VNull noOptions idle =
        resolvesWith zeroDraw noElapse
          (exchange offline POST (under (VStr "/users") (VStr "sync")) (JsonBody VNull)
             (payloadConfig noOptions))
          None idle
  | inl _ => False
  end.
Proof.
  destruct (resource offline zeroDraw noElapse (VStr "/users")) as [e|R] eqn:HR;
    [discriminate HR|].
  exact (resource_action_dispatch offline zeroDraw noElapse (VStr "/users") R
           "sync" VNull noOptions idle HR eq_refl).
Defined.

Lemma resource_collection_operations_witness :
  match resource offline zeroDraw noElapse (VStr "/users") with
  | inr R =>
      r_list R (VObj {["page" := VNum 2]}) noOptions idle =
        resolvesWith zeroDraw noElapse
          (exchange offline GET (VStr "/users") NoBody
             (listConfig (VObj {["page" := VNum 2]}) noOptions))
          None idle
  | inl _ => False
  end.
Proof.
  destruct (resource offline zeroDraw noElapse (VStr "/users")) as [e|R] eqn:HR;
    [discriminate HR|].
  exact (proj1 (resource_collection_operations offline zeroDraw noElapse (VStr "/users")
                  R (VObj {["page" := VNum 2]}) VUndefined noOptions idle HR)).
Defined.

(** ** The file name of a download *)

Lemma length_append s1 s2 :
  String.length (s1 +:+ s2) = (String.length s1 + String.length s2)%nat.
Proof. induction s1 as [|c s1 IH]; simpl; [done | by rewrite IH]. Qed.

Lemma takeStr_append s1 s2 : takeStr (String.length s1) (s1 +:+ s2) = s1.
Proof. induction s1 as [|c s1 IH]; simpl; [by destruct s2 | by rewrite IH]. Qed.

Lemma consumed_append s1 s2 : consumed (s1 +:+ s2) s2 = s1.
Proof.
  unfold consumed. rewrite length_append.
  replace (String.length s1 + String.length s2 - String.length s2)%nat
    with (String.length s1) by lia.
  apply takeStr_append.
Qed.

Lemma matchAt_word {A : Type} w rest s caps (k : string -> gmap nat string -> option A) :
  matchAt (word w rest) (w +:+ s) caps k = matchAt rest s caps k.
Proof.
  induction w as [|c w IH]; [reflexivity|].
  change (String c w +:+ s) with (String c (w +:+ s)).
  cbn [word matchAt atomMatches]. by rewrite Ascii.eqb_refl.
Qed.

Lemma search_hit r s caps :
  matchAt r s ∅ (fun _ c => Some c) = Some caps -> search r s = Some caps.
Proof. intros H. destruct s; simpl; by rewrite H. Qed.

(** The search skips over text without the letter f. *)
Lemma search_skip pre s :
  lacks ["f"%char] pre = true ->
  search filenamePattern (pre +:+ s) = search filenamePattern s.
Proof.
  induction pre as [|c pre IH]; [reflexivity|].
  cbn [lacks among existsb]. rewrite orb_false_r. intros H.
  apply andb_prop in H as [Hc Hpre]. apply negb_true_iff in Hc.
  change (String c pre +:+ s) with (String c (pre +:+ s)).
  cbn [search]. unfold filenamePattern at 1. cbn [word matchAt atomMatches].
  rewrite Hc. by apply IH.
Qed.

Lemma search_none s : lacks ["f"%char] s = true -> search filenamePattern s = None.
Proof.
  induction s as [|c s IH].
  - intros _. reflexivity.
  - cbn [lacks among existsb]. rewrite orb_false_r. intros H.
    apply andb_prop in H as [Hc Hs]. apply negb_true_iff in Hc.
    cbn [search]. unfold filenamePattern at 1. cbn [word matchAt atomMatches].
    rewrite Hc. by apply IH.
Qed.

(** After [filename], an [=] sign leads straight to the value. *)
Lemma matchAt_assignment {A : Type} t caps (k : string -> gmap nat string -> option A) :
  matchAt assignment (String "="%char t) caps k
  = matchAt (RAlt quotedValue bareValue) t caps
      (fun s' caps' => k s' (<[1%nat := consumed t s']> caps')).
Proof. reflexivity. Qed.

Lemma among_cons_false c x cs :
  among (x :: cs) c = false -> Ascii.eqb c x = false /\ among cs c = false.
Proof. unfold among. simpl. by intros ?%orb_false_elim. Qed.

(** A lazy run up to the closing quote. *)
Lemma starLazy_to_quote {A : Type} q name rest (k : string -> option A) x :
  lacks [q; LF; CR] name = true ->
  k rest = Some x ->
  starLazy AnyChar (name +:+ String q rest)
    (fun s' => match stripPrefix (String q EmptyString) s' with
               | Some s'' => k s''
               | None => None
               end) = Some x.
Proof.
  intros Hname Hk. induction name as [|c name IH].
  - change (EmptyString +:+ String q rest) with (String q rest).
    cbn [starLazy stripPrefix]. rewrite Ascii.eqb_refl. by rewrite Hk.
  - cbn [lacks] in Hname. apply andb_prop in Hname as [Hc Hname].
    apply negb_true_iff in Hc. apply among_cons_false in Hc as [Hq Hline].
    change (String c name +:+ String q rest) with (String c (name +:+ String q rest)).
    cbn [starLazy stripPrefix atomMatches].
    rewrite (Ascii.eqb_sym q c), Hq, Hline. simpl. by apply IH.
Qed.

Lemma matchAt_quoted {A : Type} q name rest caps
    (k : string -> gmap nat string -> option A) x :
  among [squote; dquote] q = true ->
  lacks [q; LF; CR] name = true ->
  k rest (<[2%nat := String q EmptyString]> caps) = Some x ->
  matchAt quotedValue (String q (name +:+ String q rest)) caps k = Some x.
Proof.
  intros Hq Hname Hk. unfold quotedValue.
  cbn [matchAt atomMatches]. rewrite Hq.
  change (consumed (String q (name +:+ String q rest)) (name +:+ String q rest))
    with (consumed (String q EmptyString +:+ (name +:+ String q rest))
            (name +:+ String q rest)).
  rewrite consumed_append, lookup_insert_eq.
  by apply starLazy_to_quote.
Qed.

Lemma matchAt_quoted_none {A : Type} t caps (k : string -> gmap nat string -> option A) :
  match t with
  | EmptyString => True
  | String c _ => among [squote; dquote] c = false
  end ->
  matchAt quotedValue t caps k = None.
Proof.
  intros H. unfold quotedValue. cbn [matchAt atomMatches].
  destruct t as [|c t]; [reflexivity | by rewrite H].
Qed.

(** A greedy run up to the end of a bare value. *)
Lemma starGreedy_all {A : Type} cs name rest (k : string -> option A) x :
  lacks cs name = true ->
  match rest with
  | EmptyString => True
  | String c _ => among cs c = true
  end ->
  k rest = Some x ->
  starGreedy (NoneOf cs) (name +:+ rest) k = Some x.
Proof.
  intros Hname Hrest Hk. induction name as [|c name IH].
  - change (EmptyString +:+ rest) with rest. destruct rest as [|c rest]; [exact Hk|].
    cbn [starGreedy atomMatches]. by rewrite Hrest.
  - cbn [lacks] in Hname. apply andb_prop in Hname as [Hc Hname].
    change (String c name +:+ rest) with (String c (name +:+ rest)).
    cbn [starGreedy atomMatches]. rewrite Hc. by rewrite (IH Hname).
Qed.

Lemma append_cons_assoc q name rest :
  String q (name +:+ String q rest) = String q (name +:+ String q EmptyString) +:+ rest.
Proof.
  change (String q (name +:+ String q EmptyString) +:+ rest)
    with (String q ((name +:+ String q EmptyString) +:+ rest)).
  f_equal. induction name as [|c name IH]; [reflexivity|].
  change (String c name +:+ String q rest) with (String c (name +:+ String q rest)).
  change ((String c name +:+ String q EmptyString) +:+ rest)
    with (String c ((name +:+ String q EmptyString) +:+ rest)).
  by rewrite IH.
Qed.

Lemma append_nonempty pre c t : String.eqb (pre +:+ String c t) "" = false.
Proof. by destruct pre. Qed.

Lemma stripQuotes_lacks s : lacks [squote; dquote] s = true -> stripQuotes s = s.
Proof.
  induction s as [|c s IH]; [reflexivity|].
  cbn [lacks]. intros H. apply andb_prop in H as [Hc Hs]. apply negb_true_iff in Hc.
  cbn [stripQuotes]. unfold among, squote, dquote in Hc. simpl in Hc.
  rewrite orb_false_r in Hc. rewrite Hc. by rewrite (IH Hs).
Qed.

Lemma stripQuotes_quoted q name :
  among [squote; dquote] q = true ->
  stripQuotes (String q (name +:+ String q EmptyString)) = stripQuotes name.
Proof.
  intros Hq. unfold among, squote, dquote in Hq. simpl in Hq. rewrite orb_false_r in Hq.
  cbn [stripQuotes]. rewrite Hq.
  induction name as [|c name IH].
  - change (EmptyString +:+ String q EmptyString) with (String q EmptyString).
    cbn [stripQuotes]. by rewrite Hq.
  - change (String c name +:+ String q EmptyString)
      with (String c (name +:+ String q EmptyString)).
    cbn [stripQuotes]. by rewrite IH.
Qed.

Lemma lacks_sublist cs cs' s :
  (forall c, among cs' c = true -> among cs c = true) ->
  lacks cs s = true -> lacks cs' s = true.
Proof.
  intros Hsub. induction s as [|c s IH]; [done|].
  cbn [lacks]. intros H. apply andb_prop in H as [Hc Hs]. apply negb_true_iff in Hc.
  apply andb_true_intro. split; [|by apply IH].
  apply negb_true_iff. destruct (among cs' c) eqn:E; [|done].
  apply Hsub in E. congruence.
Qed.

Lemma matchFilenameJS_at pre t m :
  lacks ["f"%char] pre = true ->
  matchAt (RAlt quotedValue bareValue) t ∅
    (fun s' caps' => Some (<[1%nat := consumed t s']> caps')) = Some m ->
  matchFilenameJS (pre +:+ ("filename=" +:+ t)) = m !! 1%nat.
Proof.
  intros Hpre Hm. unfold matchFilenameJS. rewrite (search_skip _ _ Hpre).
  change ("filename=" +:+ t) with ("filename" +:+ String "="%char t).
  rewrite (search_hit _ _ m); [reflexivity|].
  unfold filenamePattern. by rewrite matchAt_word, matchAt_assignment.
Qed.

Lemma extractFilename_header m header d :
  extractFilename m (Some (withDisposition header d)) =
  if truthy (VStr header) then
    match m header with
    | Some x => if truthy (VStr x) then VStr (stripQuotes x) else VUndefined
    | None => VUndefined
    end
  else VUndefined.
Proof.
  unfold extractFilename, withDisposition. simpl. by rewrite lookup_singleton_eq.
Qed.

(** X21.  For a [content-disposition] header that has no letter f
    before [filename=] and whose value is enclosed in a pair of single or
    double quotes (the name holding no such quote and no line break),
    [download] takes as file name the text between the quotes, with every
    remaining quote character removed; what follows the closing quote is
    ignored. *)
Theorem filename_of_quoted_value pre q name rest d :
  lacks ["f"%char] pre = true ->
  among [squote; dquote] q = true ->
  lacks [q; LF; CR] name = true ->
  extractFilename matchFilenameJS
    (Some (withDisposition
             (pre +:+ ("filename=" +:+ String q (name +:+ String q rest))) d))
  = VStr (stripQuotes name).
Proof.
  intros Hpre Hq Hname. rewrite extractFilename_header.
  assert (Hm : matchFilenameJS
                 (pre +:+ ("filename=" +:+ String q (name +:+ String q rest)))
               = Some (String q (name +:+ String q EmptyString))).
  { erewrite matchFilenameJS_at; [|exact Hpre|].
    2: { cbn [matchAt]. erewrite matchAt_quoted; [reflexivity|exact Hq|exact Hname|].
         reflexivity. }
    rewrite lookup_insert_eq. f_equal.
    rewrite append_cons_assoc at 1. apply consumed_append. }
  rewrite Hm. cbv beta iota.
  change (truthy (VStr (String q (name +:+ String q EmptyString)))) with true.
  change ("filename=" +:+ String q (name +:+ String q rest))
    with (String "f"%char ("ilename=" +:+ String q (name +:+ String q rest))).
  unfold truthy at 1. rewrite append_nonempty. cbv beta iota delta [negb].
  by rewrite (stripQuotes_quoted _ _ Hq).
Qed.

(** X22.  For a header that has no letter f before [filename=] and
    whose value is bare (no quote, [;] or line feed in it, and followed by
    the end of the header, [;] or a line feed), [download] takes the
    value as the file name; an empty value gives no file name
    ([undefined]). *)
Theorem filename_of_bare_value pre name rest d :
  lacks ["f"%char] pre = true ->
  lacks [";"%char; LF; squote; dquote] name = true ->
  endsValue rest ->
  extractFilename matchFilenameJS
    (Some (withDisposition (pre +:+ ("filename=" +:+ (name +:+ rest))) d))
  = match name with
    | EmptyString => VUndefined
    | _ => VStr name
    end.
Proof.
  intros Hpre Hname Hrest. rewrite extractFilename_header.
  assert (Hbare : lacks [";"%char; LF] name = true).
  { revert Hname. apply lacks_sublist. intros c. unfold among. simpl.
    rewrite !orb_false_r. intros [->| ->]%orb_prop; by rewrite ?orb_true_r. }
  assert (Hnoq : lacks [squote; dquote] name = true).
  { revert Hname. apply lacks_sublist. intros c. unfold among. simpl.
    rewrite !orb_false_r. intros [->| ->]%orb_prop; by rewrite ?orb_true_r. }
  assert (Hm : matchFilenameJS (pre +:+ ("filename=" +:+ (name +:+ rest))) = Some name).
  { erewrite matchFilenameJS_at; [|exact Hpre|].
    2: { cbn [matchAt]. rewrite matchAt_quoted_none.
         - unfold bareValue. cbn [matchAt].
           erewrite starGreedy_all; [reflexivity | exact Hbare | exact Hrest | reflexivity].
         - destruct name as [|c name].
           + change (EmptyString +:+ rest) with rest. destruct rest as [|c rest]; [done|].
             unfold endsValue, among in *. simpl in *.
             rewrite orb_false_r in *.
             apply orb_prop in Hrest as [->%Ascii.eqb_eq | ->%Ascii.eqb_eq]; reflexivity.
           + change (String c name +:+ rest) with (String c (name +:+ rest)).
             cbn [lacks] in Hnoq. apply andb_prop in Hnoq as [Hc _].
             by apply negb_true_iff in Hc. }
    rewrite lookup_insert_eq. f_equal. apply consumed_append. }
  rewrite Hm. cbv beta iota.
  change ("filename=" +:+ (name +:+ rest))
    with (String "f"%char ("ilename=" +:+ (name +:+ rest))).
  unfold truthy at 1. rewrite append_nonempty. cbv beta iota delta [negb].
  rewrite (stripQuotes_lacks _ Hnoq).
  by destruct name.
Qed.

(** X23.  A response without a [content-disposition] header, and one
    whose header has no letter f at all (so no [filename]), give no file
    name: [download] then reports [filename: undefined] instead of
    failing. *)
Theorem filename_absent :
  (forall m r, headers r !! "content-disposition" = None ->
               extractFilename m (Some r) = VUndefined) /\
  (forall header d, lacks ["f"%char] header = true ->
     extractFilename matchFilenameJS (Some (withDisposition header d)) = VUndefined).
Proof.
  split.
  - intros m r H. unfold extractFilename. by rewrite H.
  - intros header d H. rewrite extractFilename_header.
    unfold matchFilenameJS. rewrite (search_none _ H). simpl.
    by destruct (negb (String.eqb header "")).
Qed.

Lemma filename_of_quoted_value_witness :
  extractFilename matchFilenameJS
    (Some (withDisposition
             ("attachment; " +:+
              ("filename=" +:+ String dquote ("report.pdf" +:+ String dquote "")))
             VNull))
  = VStr "report.pdf".
Proof.
  apply (filename_of_quoted_value "attachment; " dquote "report.pdf" "" VNull);
    reflexivity.
Defined.

Lemma filename_of_bare_value_witness :
  extractFilename matchFilenameJS
    (Some (withDisposition
             ("attachment; " +:+ ("filename=" +:+ ("report.pdf" +:+ "; size=3")))
             VNull))
  = VStr "report.pdf".
Proof.
  apply (filename_of_bare_value "attachment; " "report.pdf" "; size=3" VNull);
    reflexivity.
Defined.

Lemma filename_absent_witness :
  extractFilename matchFilenameJS (Some (responseOf 200 VNull)) = VUndefined /\
  extractFilename matchFilenameJS (Some (withDisposition "inline" VNull)) = VUndefined.
Proof.
  destruct filename_absent as [Hnone Hnof]. split.
  - apply Hnone. reflexivity.
  - apply Hnof. reflexivity.
Defined.

Lemma valid_path_settles_witness :
  settlesToResult (getOne offline zeroDraw noElapse (VStr "/users") noOptions idle) /\
  settlesToResult
    (download offline zeroDraw noElapse matchFilenameJS (VStr "/users") noOptions idle).
Proof.
  destruct (valid_path_settles offline zeroDraw noElapse matchFilenameJS
              (VStr "/users") VNull noOptions idle eq_refl)
    as (_ & Hget & _ & _ & _ & _ & Hdown).
  split; [exact Hget | exact Hdown].
Defined.

Lemma download_wraps_run_witness :
  fst (download fileServer zeroDraw noElapse matchFilenameJS (VStr "/report")
         noOptions idle)
  = Returns (Fulfilled
      (mkResult true
         (VObj (<["filename" := VStr "a.txt"]> {["blob" := VBlob 7]})))).
Proof.
  destruct (download_wraps_run fileServer zeroDraw noElapse matchFilenameJS
              (VStr "/report") noOptions idle eq_refl)
    as (_ & [(Hfail & _) | (res & w & w' & Hres & _ & Hdown)]).
  - exfalso. destruct Hfail as (o & Heq & Hs & _).
    vm_compute in Heq. injection Heq as <-. vm_compute in Hs. discriminate.
  - rewrite Hdown. injection Hres as <- _. reflexivity.
Defined.
